(** * Even-element reduction: sequential, mutex and lock-free versions

    A shallow embedding of [lab_2/lab_2/main.cpp].  The program fills an
    array, then computes the sum and the maximum of its even elements three
    times (one thread; 32 threads under one mutex; 32 threads on two
    atomics) and prints [2 * max_even - sum_even] each time.

    The array contents, its length [n] and the number of threads
    [num_threads] are parameters of the model; [int] and [long long] are
    integers of [Z] with the wrap-around written out. *)

From Stdlib Require Import Sorted.
From stdpp Require Import prelude.

Local Open Scope Z_scope.

(** ** Machine integers *)

Module MachineInt.

(** Two's complement value of [z] in [w] bits. *)
Definition wrap (w : Z) (z : Z) : Z :=
  (z + 2 ^ (w - 1)) `mod` 2 ^ w - 2 ^ (w - 1).

Definition INT_MAX : Z := 2 ^ 31 - 1.
Definition INT_MIN : Z := - 2 ^ 31.
Definition LLONG_MAX : Z := 2 ^ 63 - 1.
Definition LLONG_MIN : Z := - 2 ^ 63.

Definition is_int (z : Z) : Prop := INT_MIN ≤ z ≤ INT_MAX.
Definition is_llong (z : Z) : Prop := LLONG_MIN ≤ z ≤ LLONG_MAX.

(** [int] arithmetic. *)
Definition int_add (a b : Z) : Z := wrap 32 (a + b).
Definition int_sub (a b : Z) : Z := wrap 32 (a - b).
Definition int_mul (a b : Z) : Z := wrap 32 (a * b).
Definition int_div (a b : Z) : Z := wrap 32 (a ÷ b).

(** [long long] arithmetic. *)
Definition ll_add (a b : Z) : Z := wrap 64 (a + b).
Definition ll_sub (a b : Z) : Z := wrap 64 (a - b).
Definition ll_mul (a b : Z) : Z := wrap 64 (a * b).

End MachineInt.

Import MachineInt.

(** ** Pure list helpers used in the specifications *)

(** The test [x % 2 == 0] of C++ ([%] truncates towards zero). *)
Definition is_even (x : Z) : bool := Z.rem x 2 =? 0.

Definition evens (l : list Z) : list Z := filter (λ x, is_even x) l.

Definition sumZ (l : list Z) : Z := foldr Z.add 0 l.

(** Maximum of a list above the sentinel [-1]. *)
Definition maxZ (l : list Z) : Z := foldr Z.max (-1) l.

(** [arr[lo .. hi)]. *)
Definition slice (arr : list Z) (lo hi : Z) : list Z :=
  take (Z.to_nat (hi - lo)) (drop (Z.to_nat lo) arr).

(** ** The program's variables and the sequential version (lines 32-43) *)

Record store := Store {
  arr : list Z;          (* vector<int> arr(n) *)
  sum_even : Z;          (* long long sum_even *)
  max_even : Z           (* int max_even *)
}.

(** Lines 32-33 and 54-55: [sum_even = 0; max_even = -1]. *)
Definition reset (a : list Z) : store := Store a 0 (-1).

(** Lines 35-40, for one element [x] copied out of the array. *)
Definition seq_body (s : store) (x : Z) : store :=
  if is_even x then
    let s1 := Store (arr s) (ll_add (sum_even s) x) (max_even s) in
    if x >? max_even s1 then Store (arr s1) (sum_even s1) x else s1
  else s.

(** Line 34: [for (int x : arr)]. *)
Definition seq_loop (s : store) : store := foldl seq_body s (arr s).

(** Lines 43, 82, 118: [2LL * max - sum]. *)
Definition combine (mx sm : Z) : Z := ll_sub (ll_mul 2 mx) sm.

Definition sequential (a : list Z) : store := seq_loop (reset a).

Definition result_of (s : store) : Z := combine (max_even s) (sum_even s).

(** ** Partitioning (lines 60-64 and 97-98) *)

Section Partition.
Variable n : Z.             (* const int n *)
Variable num_threads : Z.   (* const int num_threads *)

(** [int chunk = n / num_threads;] *)
Definition chunk : Z := int_div n num_threads.

(** [int start_idx = t * chunk;] *)
Definition start_idx (t : Z) : Z := int_mul t chunk.

(** [int end_idx = (t == num_threads - 1) ? n : start_idx + chunk;] *)
Definition end_idx (t : Z) : Z :=
  if t =? int_sub num_threads 1 then n else int_add (start_idx t) chunk.

(** The ranges handed to the threads [t = 0 .. num_threads - 1]. *)
Definition chunks : list (Z * Z) :=
  (λ t, (start_idx t, end_idx t)) <$> seqZ 0 num_threads.
End Partition.

(** [arr[i]] for an [int] index; [None] stands for an access outside of the
    vector, which the C++ standard leaves undefined. *)
Definition index (a : list Z) (i : Z) : option Z :=
  if i <? 0 then None else a !! Z.to_nat i.

(** ** Version with a mutex (lines 53-82)

    Every thread runs the lambda of line 65.  A thread is its captured
    [start_idx] and [end_idx] and a program point; the shared variables are
    the [store] and the mutex.  One step of the machine is one statement of
    one thread, so that the statements of different threads interleave in
    every possible order. *)

Inductive mpc : Type :=
| MLoop (i : Z)        (* line 66: about to test [i < end_idx] *)
| MLock (i x : Z)      (* line 70: [lock_guard<mutex> lock(mtx)] *)
| MSum (i x : Z)       (* line 71: [sum_even += x] *)
| MTest (i x : Z)      (* line 72: [if (x > max_even)] *)
| MSet (i x : Z)       (* line 73: [max_even = x] *)
| MUnlock (i x : Z)    (* line 75: the guard goes out of scope *)
| MDone                (* the lambda has returned *)
| MFault.              (* [arr[i]] outside of the vector *)

Record mthread := MThread { m_start : Z; m_end : Z; m_pc : mpc }.

Record mstate := MState {
  m_store : store;
  mtx : option nat;              (* the owner of the mutex, if any *)
  m_threads : list mthread       (* vector<thread> threads *)
}.

(** One statement of thread [me]; [None] when the thread cannot move
    (blocked on the mutex, returned, or faulted). *)
Definition m_exec (me : nat) (th : mthread) (s : store) (lk : option nat)
  : option (store * option nat * mpc) :=
  match m_pc th with
  | MLoop i =>
      if i <? m_end th then
        match index (arr s) i with
        | Some x =>
            if is_even x then Some (s, lk, MLock i x)
            else Some (s, lk, MLoop (int_add i 1))
        | None => Some (s, lk, MFault)
        end
      else Some (s, lk, MDone)
  | MLock i x =>
      match lk with
      | None => Some (s, Some me, MSum i x)
      | Some _ => None
      end
  | MSum i x =>
      Some (Store (arr s) (ll_add (sum_even s) x) (max_even s), lk, MTest i x)
  | MTest i x =>
      if x >? max_even s then Some (s, lk, MSet i x)
      else Some (s, lk, MUnlock i x)
  | MSet i x => Some (Store (arr s) (sum_even s) x, lk, MUnlock i x)
  | MUnlock i x => Some (s, None, MLoop (int_add i 1))
  | MDone | MFault => None
  end.

Definition mstep_at (t : nat) (σ : mstate) : option mstate :=
  match m_threads σ !! t with
  | Some th =>
      match m_exec t th (m_store σ) (mtx σ) with
      | Some (s, lk, pc) =>
          Some (MState s lk
                  (<[t := MThread (m_start th) (m_end th) pc]> (m_threads σ)))
      | None => None
      end
  | None => None
  end.

Definition mstep (σ σ' : mstate) : Prop := ∃ t, mstep_at t σ = Some σ'.

(** Lines 61-65: thread [t] is created with its range and starts at
    [i = start_idx].  A thread that has been created but not yet scheduled
    behaves like one that is not created yet, so all threads are in the pool
    from the start. *)
Definition mspawn (n num_threads t : Z) : mthread :=
  MThread (start_idx n num_threads t) (end_idx n num_threads t)
          (MLoop (start_idx n num_threads t)).

Definition minit (num_threads : Z) (a : list Z) : mstate :=
  MState (reset a) None
         (mspawn (Z.of_nat (length a)) num_threads <$> seqZ 0 num_threads).

(** Lines 79-81: every [join] has returned. *)
Definition mjoined (σ : mstate) : Prop :=
  Forall (λ th, m_pc th = MDone) (m_threads σ).

#[global] Instance mpc_eq_dec : EqDecision mpc.
Proof. solve_decision. Defined.

#[global] Instance mjoined_dec σ : Decision (mjoined σ).
Proof. unfold mjoined. apply _. Defined.

(** Run a schedule (a list of thread numbers); a thread that cannot move
    when its turn comes is skipped. *)
Definition mrun (sched : list nat) (σ : mstate) : mstate :=
  foldl (λ σ t, default σ (mstep_at t σ)) σ sched.

(** ** Version with atomics and CAS (lines 92-118) *)

Inductive apc : Type :=
| ALoop (i : Z)                  (* line 100: about to test [i < end_idx] *)
| AAdd (i x : Z)                 (* line 104: [atomic_sum.fetch_add] *)
| ALoad (i x : Z)                (* line 106: [atomic_max.load] *)
| ACas (i x current_max : Z)     (* lines 107-108: the loop condition *)
| ADone
| AFault.

Record athread := AThread { a_start : Z; a_end : Z; a_pc : apc }.

Record astate := AState {
  a_arr : list Z;
  atomic_sum : Z;               (* atomic<long long> atomic_sum *)
  atomic_max : Z;               (* atomic<int> atomic_max: its latest value *)
  atomic_max_old : list Z;      (* the earlier values, newest first *)
  a_threads : list athread
}.

(** What the program does not decide in one step of a thread: which value
    of the modification order a relaxed load returns ([0] is the latest),
    and whether [compare_exchange_weak] fails although the values agree. *)
Record choice := Choice { stale : nat; spurious : bool }.

Definition a_exec (c : choice) (th : athread) (σ : astate)
  : option (Z * Z * list Z * apc) :=
  let sm := atomic_sum σ in
  let mx := atomic_max σ in
  let old := atomic_max_old σ in
  match a_pc th with
  | ALoop i =>
      if i <? a_end th then
        match index (a_arr σ) i with
        | Some x =>
            if is_even x then Some (sm, mx, old, AAdd i x)
            else Some (sm, mx, old, ALoop (int_add i 1))
        | None => Some (sm, mx, old, AFault)
        end
      else Some (sm, mx, old, ADone)
  | AAdd i x => Some (ll_add sm x, mx, old, ALoad i x)
  | ALoad i x =>
      Some (sm, mx, old, ACas i x (default mx ((mx :: old) !! stale c)))
  | ACas i x current_max =>
      if x >? current_max then
        if (mx =? current_max) && negb (spurious c)
        then Some (sm, x, mx :: old, ALoop (int_add i 1))
        else Some (sm, mx, old, ACas i x mx)
      else Some (sm, mx, old, ALoop (int_add i 1))
  | ADone | AFault => None
  end.

Definition astep_at (t : nat) (c : choice) (σ : astate) : option astate :=
  match a_threads σ !! t with
  | Some th =>
      match a_exec c th σ with
      | Some (sm, mx, old, pc) =>
          Some (AState (a_arr σ) sm mx old
                  (<[t := AThread (a_start th) (a_end th) pc]> (a_threads σ)))
      | None => None
      end
  | None => None
  end.

Definition astep (σ σ' : astate) : Prop := ∃ t c, astep_at t c σ = Some σ'.

Definition aspawn (n num_threads t : Z) : athread :=
  AThread (start_idx n num_threads t) (end_idx n num_threads t)
          (ALoop (start_idx n num_threads t)).

(** Lines 93-99. *)
Definition ainit (num_threads : Z) (a : list Z) : astate :=
  AState a 0 (-1) []
         (aspawn (Z.of_nat (length a)) num_threads <$> seqZ 0 num_threads).

(** Lines 115-117. *)
Definition ajoined (σ : astate) : Prop :=
  Forall (λ th, a_pc th = ADone) (a_threads σ).

#[global] Instance apc_eq_dec : EqDecision apc.
Proof. solve_decision. Defined.

#[global] Instance ajoined_dec σ : Decision (ajoined σ).
Proof. unfold ajoined. apply _. Defined.

Definition arun (sched : list (nat * choice)) (σ : astate) : astate :=
  foldl (λ σ tc, default σ (astep_at tc.1 tc.2 σ)) σ sched.

(** ** The whole of [main] *)

(** What [main] prints, and the array when it returns. *)
Record report := Report {
  result_seq : Z;    max_seq : Z;
  result_mutex : Z;  max_mutex : Z;
  result_atomic : Z; max_atomic : Z;
  arr_final : list Z
}.

(** [main] on the array [a] (as [generateArray] left it) with
    [num_threads] threads: the three versions run one after the other on
    the same array. *)
Inductive main_run (num_threads : Z) (a : list Z) : report → Prop :=
| MainRun s1 σm σa :
    s1 = sequential a →
    rtc mstep (minit num_threads (arr s1)) σm → mjoined σm →
    rtc astep (ainit num_threads (arr (m_store σm))) σa → ajoined σa →
    main_run num_threads a
      (Report (result_of s1) (max_even s1)
              (result_of (m_store σm)) (max_even (m_store σm))
              (combine (atomic_max σa) (atomic_sum σa)) (atomic_max σa)
              (a_arr σa)).

(** The scheduler's choice that reads the latest value and lets the
    exchange succeed. *)
Definition prompt : choice := Choice 0 false.

(** ** Filling the array (lines 14-21 and 27-28)

    [generateArray] draws every element from a
    [uniform_int_distribution<int> dist(minVal, maxVal)] over the static
    generator [gen].  The generator and the distribution belong to the
    C++ library: one draw [dist(gen)] is a parameter, a function from the
    bounds and the state of the generator to the value drawn and the next
    state. *)

Section GenerateArray.
Context {G : Type}.
Variable draw : Z → Z → G → Z * G.   (* dist(gen) *)

(** Lines 18-20: [for (auto &x : arr) x = dist(gen);]. *)
Fixpoint generateArray (arr : list Z) (minVal maxVal : Z) (gen : G)
  : list Z * G :=
  match arr with
  | [] => ([], gen)
  | _ :: rest =>
      let '(x, gen1) := draw minVal maxVal gen in
      let '(rest', gen2) := generateArray rest minVal maxVal gen1 in
      (x :: rest', gen2)
  end.

(** Lines 27-28: [vector<int> arr(n); generateArray(arr);] with the
    default bounds 0 and 10000. *)
Definition main_array (n : Z) (gen : G) : list Z :=
  (generateArray (replicate (Z.to_nat n) 0) 0 10000 gen).1.
End GenerateArray.

(** What the library promises of a draw: a value within the bounds, when
    the bounds are in order. *)
Definition draw_in_range {G : Type} (draw : Z → Z → G → Z * G) : Prop :=
  ∀ lo hi g, lo ≤ hi → lo ≤ (draw lo hi g).1 ≤ hi.

(** A generator to run the model with: a linear congruential one. *)
Definition lcg_draw (lo hi : Z) (g : Z) : Z * Z :=
  (lo + g `mod` (hi - lo + 1), (1103515245 * g + 12345) `mod` 2 ^ 31).

(** * Specification vocabulary *)

(** [n] and [num_threads] as the program can have them: [n] is the size of
    a vector and an [int], [num_threads] a positive [int]. *)
Definition sizes_ok (n num_threads : Z) : Prop :=
  0 ≤ n ≤ INT_MAX ∧ 1 ≤ num_threads ≤ INT_MAX.

(** The array as the program can have it: [int] elements, and a size that
    is an [int]. *)
Definition array_ok (a : list Z) : Prop :=
  Forall is_int a ∧ Z.of_nat (length a) ≤ INT_MAX.

(** [m] is the greatest element of [l]. *)
Definition greatest (l : list Z) (m : Z) : Prop :=
  m ∈ l ∧ ∀ y, y ∈ l → y ≤ m.

(** Index [i] belongs to the range of thread [t]. *)
Definition in_chunk (n num_threads t i : Z) : Prop :=
  start_idx n num_threads t ≤ i < end_idx n num_threads t.

(** The pairs [(max, sum)] that reach line 43, 82 or 118. *)
Inductive final_pair (num_threads : Z) (a : list Z) : Z → Z → Prop :=
| FinalSeq :
    final_pair num_threads a
      (max_even (sequential a)) (sum_even (sequential a))
| FinalMutex σ :
    rtc mstep (minit num_threads a) σ → mjoined σ →
    final_pair num_threads a (max_even (m_store σ)) (sum_even (m_store σ))
| FinalAtomic σ :
    rtc astep (ainit num_threads a) σ → ajoined σ →
    final_pair num_threads a (atomic_max σ) (atomic_sum σ).

(** The sequential reducer's postcondition as the specification words it:
    [m] is the greatest even element, or the sentinel when there is no even
    element. *)
Definition true_max_or_sentinel (l : list Z) (m : Z) : Prop :=
  (evens l = [] ∧ m = -1) ∨ greatest (evens l) m.

(** The report [main] prints when all three versions compute what the
    sequential loop computes. *)
Definition expected_report (a : list Z) : report :=
  let s := sequential a in
  Report (result_of s) (max_even s) (result_of s) (max_even s)
         (result_of s) (max_even s) a.

(** What the specification says of the sequential reducer. *)
Definition sequential_claim (a : list Z) : Prop :=
  sum_even (sequential a) = sumZ (evens a) ∧
  true_max_or_sentinel a (max_even (sequential a)).

(** * Invariants *)

(** ** Mutex version *)

(** The program points at which a thread holds the mutex. *)
Definition in_crit (pc : mpc) : bool :=
  match pc with
  | MSum _ _ | MTest _ _ | MSet _ _ | MUnlock _ _ => true
  | _ => false
  end.

(** The elements [m_start .. m_pos) of a thread's range are behind it. *)
Definition m_pos (th : mthread) : Z :=
  match m_pc th with
  | MLoop i | MLock i _ | MSum i _ | MTest i _ | MSet i _ | MUnlock i _ => i
  | MDone => m_end th
  | MFault => m_start th
  end.

(** The elements thread [th] has added to [sum_even] so far. *)
Definition m_summed (a : list Z) (th : mthread) : list Z :=
  evens (slice a (m_start th) (m_pos th)) ++
  match m_pc th with
  | MTest _ x | MSet _ x | MUnlock _ x => [x]
  | _ => []
  end.

(** The elements thread [th] has compared with [max_even] so far. *)
Definition m_maxed (a : list Z) (th : mthread) : list Z :=
  evens (slice a (m_start th) (m_pos th)) ++
  match m_pc th with
  | MUnlock _ x => [x]
  | _ => []
  end.

(** What holds of a thread at each program point: its index is inside its
    range, the element it carries is the even [arr[i]], and after a
    successful test at line 72 that element is above [max_even]. *)
Definition mthread_ok (a : list Z) (mx : Z) (th : mthread) : Prop :=
  match m_pc th with
  | MLoop i => m_start th ≤ i ≤ m_end th
  | MLock i x | MSum i x | MTest i x | MUnlock i x =>
      m_start th ≤ i < m_end th ∧ index a i = Some x ∧ is_even x = true
  | MSet i x =>
      m_start th ≤ i < m_end th ∧ index a i = Some x ∧ is_even x = true
      ∧ mx < x
  | MDone => True
  | MFault => False
  end.

(** The invariant of the mutex version: the threads have the ranges of the
    partition, a thread is between lines 71 and 75 exactly when it owns
    the mutex, and the shared variables account for the elements the
    threads have dealt with. *)
Record minv (W : Z) (a : list Z) (σ : mstate) : Prop := MInv {
  minv_arr : arr (m_store σ) = a;
  minv_len : length (m_threads σ) = Z.to_nat W;
  minv_shape : ∀ t th, m_threads σ !! t = Some th →
    m_start th = start_idx (Z.of_nat (length a)) W (Z.of_nat t) ∧
    m_end th = end_idx (Z.of_nat (length a)) W (Z.of_nat t);
  minv_ok : ∀ t th, m_threads σ !! t = Some th →
    mthread_ok a (max_even (m_store σ)) th;
  minv_crit : ∀ t th, m_threads σ !! t = Some th →
    in_crit (m_pc th) = true → mtx σ = Some t;
  minv_owner : ∀ t, mtx σ = Some t →
    ∃ th, m_threads σ !! t = Some th ∧ in_crit (m_pc th) = true;
  minv_sum : sum_even (m_store σ)
             = wrap 64 (sumZ (concat (m_summed a <$> m_threads σ)));
  minv_max : max_even (m_store σ)
             = maxZ (concat (m_maxed a <$> m_threads σ))
}.

(** An upper bound on the steps thread [th] can still make. *)
Definition m_weight (th : mthread) : nat :=
  match m_pc th with
  | MLoop i => 7 * Z.to_nat (m_end th - i) + 1
  | MLock i _ => 7 * Z.to_nat (m_end th - i)
  | MSum i _ => 7 * Z.to_nat (m_end th - i) - 1
  | MTest i _ => 7 * Z.to_nat (m_end th - i) - 2
  | MSet i _ => 7 * Z.to_nat (m_end th - i) - 3
  | MUnlock i _ => 7 * Z.to_nat (m_end th - i) - 4
  | MDone | MFault => 0
  end%nat.

Definition m_measure (σ : mstate) : nat :=
  sum_list_with m_weight (m_threads σ).

(** ** Lock-free version *)

(** The elements [a_start .. a_pos) of a thread's range are behind it. *)
Definition a_pos (th : athread) : Z :=
  match a_pc th with
  | ALoop i | AAdd i _ | ALoad i _ | ACas i _ _ => i
  | ADone => a_end th
  | AFault => a_start th
  end.

(** The even elements thread [th] is done with. *)
Definition a_behind (a : list Z) (th : athread) : list Z :=
  evens (slice a (a_start th) (a_pos th)).

(** The elements thread [th] has added to [atomic_sum] so far. *)
Definition a_summed (a : list Z) (th : athread) : list Z :=
  a_behind a th ++
  match a_pc th with
  | ALoad _ x | ACas _ x _ => [x]
  | _ => []
  end.

(** What holds of a thread at each program point; the value a thread
    compares with in the loop is one [atomic_max] has or had. *)
Definition athread_ok (a : list Z) (mx : Z) (old : list Z) (th : athread)
  : Prop :=
  match a_pc th with
  | ALoop i => a_start th ≤ i ≤ a_end th
  | AAdd i x | ALoad i x =>
      a_start th ≤ i < a_end th ∧ index a i = Some x ∧ is_even x = true
  | ACas i x current_max =>
      a_start th ≤ i < a_end th ∧ index a i = Some x ∧ is_even x = true
      ∧ current_max ∈ mx :: old
  | ADone => True
  | AFault => False
  end.

(** The modification order of [atomic_max], oldest value last, is strictly
    decreasing from its head: every value installed was greater than all
    values before it. *)
Definition max_history_increasing (σ : astate) : Prop :=
  StronglySorted (λ newer older, older < newer)
                 (atomic_max σ :: atomic_max_old σ).

(** The invariant of the lock-free version: [atomic_sum] accounts for the
    elements added so far, and [atomic_max] is [-1] or an even element of
    the array, and is not below any element a thread is done with. *)
Record ainv (W : Z) (a : list Z) (σ : astate) : Prop := AInv {
  ainv_arr : a_arr σ = a;
  ainv_len : length (a_threads σ) = Z.to_nat W;
  ainv_shape : ∀ t th, a_threads σ !! t = Some th →
    a_start th = start_idx (Z.of_nat (length a)) W (Z.of_nat t) ∧
    a_end th = end_idx (Z.of_nat (length a)) W (Z.of_nat t);
  ainv_ok : ∀ t th, a_threads σ !! t = Some th →
    athread_ok a (atomic_max σ) (atomic_max_old σ) th;
  ainv_behind : ∀ t th y, a_threads σ !! t = Some th →
    y ∈ a_behind a th → y ≤ atomic_max σ;
  ainv_sum : atomic_sum σ
             = wrap 64 (sumZ (concat (a_summed a <$> a_threads σ)));
  ainv_mono : max_history_increasing σ;
  ainv_elem : atomic_max σ ∈ -1 :: evens a;
  ainv_low : -1 ≤ atomic_max σ
}.

(** * Properties *)

(** ** Machine integers *)

Lemma wrap_32_id z : is_int z → wrap 32 z = z.
Proof.
  unfold is_int, INT_MIN, INT_MAX, wrap. intros H.
  change (2 ^ (32 - 1)) with 2147483648. change (2 ^ 32) with 4294967296.
  change (2 ^ 31) with 2147483648 in H.
  rewrite Z.mod_small; lia.
Qed.

Lemma wrap_64_id z : is_llong z → wrap 64 z = z.
Proof.
  unfold is_llong, LLONG_MIN, LLONG_MAX, wrap. intros H.
  change (2 ^ (64 - 1)) with 9223372036854775808.
  change (2 ^ 64) with 18446744073709551616.
  change (2 ^ 63) with 9223372036854775808 in H.
  rewrite Z.mod_small; lia.
Qed.

(** Adding to a wrapped value and wrapping again loses nothing more. *)
Lemma wrap_64_add_l a b : wrap 64 (wrap 64 a + b) = wrap 64 (a + b).
Proof.
  unfold wrap.
  change (2 ^ (64 - 1)) with 9223372036854775808.
  change (2 ^ 64) with 18446744073709551616.
  f_equal.
  replace ((a + 9223372036854775808) `mod` 18446744073709551616
             - 9223372036854775808 + b + 9223372036854775808)
    with ((a + 9223372036854775808) `mod` 18446744073709551616 + b) by lia.
  rewrite Zplus_mod_idemp_l. f_equal. lia.
Qed.

Lemma int_bounds z : is_int z ↔ -2147483648 ≤ z ≤ 2147483647.
Proof. reflexivity. Qed.

Lemma llong_bounds z :
  is_llong z ↔ -9223372036854775808 ≤ z ≤ 9223372036854775807.
Proof. reflexivity. Qed.

(** ** Partitioning *)

Section PartitionFacts.
Variables n W : Z.
Hypothesis Hsz : sizes_ok n W.

Lemma chunk_eq : chunk n W = n `div` W.
Proof.
  destruct Hsz as [Hn HW]. unfold chunk, int_div.
  rewrite Z.quot_div_nonneg by lia.
  apply wrap_32_id, (proj2 (int_bounds _)). unfold INT_MAX in *. simpl in *.
  assert (0 ≤ n `div` W) by (apply Z.div_pos; lia).
  assert (n `div` W ≤ n) by (apply Z.div_le_upper_bound; nia).
  lia.
Qed.

Lemma chunk_bounds : 0 ≤ chunk n W ∧ W * chunk n W ≤ n < W * chunk n W + W.
Proof.
  destruct Hsz as [Hn HW]. rewrite chunk_eq.
  pose proof (Z.div_mod n W ltac:(lia)).
  pose proof (Z.mod_pos_bound n W ltac:(lia)).
  assert (0 ≤ n `div` W) by (apply Z.div_pos; lia).
  lia.
Qed.

Lemma start_idx_eq t : 0 ≤ t < W → start_idx n W t = t * chunk n W.
Proof.
  intros Ht. destruct Hsz as [Hn HW]. pose proof chunk_bounds as [? [? ?]].
  unfold start_idx, int_mul. apply wrap_32_id, (proj2 (int_bounds _)).
  unfold INT_MAX in *. simpl in *. nia.
Qed.

Lemma end_idx_eq t :
  0 ≤ t < W →
  end_idx n W t = if t =? W - 1 then n else (t + 1) * chunk n W.
Proof.
  intros Ht. destruct Hsz as [Hn HW]. pose proof chunk_bounds as [? [? ?]].
  unfold end_idx, int_sub. rewrite (wrap_32_id (W - 1)).
  2:{ apply (proj2 (int_bounds _)). unfold INT_MAX in *. simpl in *. lia. }
  destruct (t =? W - 1) eqn:E; [done|].
  rewrite start_idx_eq by done. unfold int_add.
  rewrite wrap_32_id; [lia|]. apply (proj2 (int_bounds _)).
  unfold INT_MAX in *. simpl in *. apply Z.eqb_neq in E. nia.
Qed.

Lemma chunk_range_bounds t :
  0 ≤ t < W → 0 ≤ start_idx n W t ≤ end_idx n W t ∧ end_idx n W t ≤ n.
Proof.
  intros Ht. destruct Hsz as [Hn HW]. pose proof chunk_bounds as [? [? ?]].
  rewrite start_idx_eq, end_idx_eq by done.
  destruct (t =? W - 1) eqn:E.
  - apply Z.eqb_eq in E. nia.
  - apply Z.eqb_neq in E. nia.
Qed.

(** Consecutive chunks are adjacent: each one starts where the one
    before ends. *)
Lemma chunk_adjacent t :
  0 ≤ t < W - 1 → end_idx n W t = start_idx n W (t + 1).
Proof.
  intros Ht. rewrite end_idx_eq, start_idx_eq by lia.
  destruct (t =? W - 1) eqn:E; [apply Z.eqb_eq in E; lia | done].
Qed.

Lemma chunk_first : start_idx n W 0 = 0.
Proof. destruct Hsz. rewrite start_idx_eq by lia. lia. Qed.

Lemma chunk_last : end_idx n W (W - 1) = n.
Proof.
  destruct Hsz. rewrite end_idx_eq by lia. by rewrite Z.eqb_refl.
Qed.

Lemma chunk_owner i :
  0 ≤ i < n → ∃ t, 0 ≤ t < W ∧ start_idx n W t ≤ i < end_idx n W t.
Proof.
  intros Hi. destruct Hsz as [Hn HW]. pose proof chunk_bounds as [Hc [? ?]].
  destruct (decide (i `div` chunk n W < W - 1 ∧ 0 < chunk n W)) as [[Hlt Hpos]|Hge].
  - exists (i `div` chunk n W).
    assert (0 ≤ i `div` chunk n W) by (apply Z.div_pos; lia).
    split; [lia|]. rewrite start_idx_eq, end_idx_eq by lia.
    destruct (_ =? _) eqn:E; [apply Z.eqb_eq in E; lia|].
    pose proof (Z.div_mod i (chunk n W) ltac:(lia)).
    pose proof (Z.mod_pos_bound i (chunk n W) ltac:(lia)). nia.
  - exists (W - 1). split; [lia|].
    rewrite start_idx_eq, end_idx_eq by lia. rewrite Z.eqb_refl.
    split; [|lia].
    destruct (decide (0 < chunk n W)) as [Hpos|]; [|nia].
    assert (W - 1 ≤ i `div` chunk n W) by lia.
    pose proof (Z.div_mod i (chunk n W) ltac:(lia)).
    pose proof (Z.mod_pos_bound i (chunk n W) ltac:(lia)). nia.
Qed.

Lemma chunk_disjoint t1 t2 i :
  0 ≤ t1 < W → 0 ≤ t2 < W →
  start_idx n W t1 ≤ i < end_idx n W t1 →
  start_idx n W t2 ≤ i < end_idx n W t2 →
  t1 = t2.
Proof.
  intros H1 H2. pose proof chunk_bounds as [Hc [? ?]].
  rewrite !start_idx_eq, !end_idx_eq by done.
  destruct (t1 =? W - 1) eqn:E1, (t2 =? W - 1) eqn:E2;
    repeat match goal with
           | H : (_ =? _) = true |- _ => apply Z.eqb_eq in H
           | H : (_ =? _) = false |- _ => apply Z.eqb_neq in H
           end; intros ? ?; [lia| | |].
  - destruct (decide (t2 + 1 ≤ t1)); [nia|lia].
  - destruct (decide (t1 + 1 ≤ t2)); [nia|lia].
  - destruct (decide (t1 + 1 ≤ t2)); [nia|].
    destruct (decide (t2 + 1 ≤ t1)); [nia|lia].
Qed.
End PartitionFacts.

(** ** Sums, maxima and slices *)

Section ListFacts.
Implicit Types l k : list Z.

Lemma sumZ_cons x l : sumZ (x :: l) = x + sumZ l.
Proof. reflexivity. Qed.

Lemma maxZ_cons x l : maxZ (x :: l) = Z.max x (maxZ l).
Proof. reflexivity. Qed.

Lemma sumZ_app l k : sumZ (l ++ k) = sumZ l + sumZ k.
Proof.
  induction l as [|x l IH]; [done|].
  rewrite <-app_comm_cons, !sumZ_cons, IH. lia.
Qed.

Lemma maxZ_lower l : -1 ≤ maxZ l.
Proof.
  induction l as [|x l IH]; [done|]. rewrite maxZ_cons. lia.
Qed.

Lemma maxZ_app l k : maxZ (l ++ k) = Z.max (maxZ l) (maxZ k).
Proof.
  induction l as [|x l IH].
  - pose proof (maxZ_lower k). change (maxZ []) with (-1). simpl app. lia.
  - rewrite <-app_comm_cons, !maxZ_cons, IH. lia.
Qed.

Lemma maxZ_upper l y : y ∈ l → y ≤ maxZ l.
Proof. induction 1; rewrite maxZ_cons; lia. Qed.

Lemma maxZ_elem l : maxZ l = -1 ∨ maxZ l ∈ l.
Proof.
  induction l as [|x l [IH|IH]]; [by left| |]; rewrite maxZ_cons.
  - destruct (Z.max_spec x (maxZ l)) as [[_ ->]|[_ ->]];
      [by left | right; left].
  - right. destruct (Z.max_spec x (maxZ l)) as [[_ ->]|[_ ->]];
      [by right | left].
Qed.

(** The characterisation used for the lock-free version. *)
Lemma maxZ_unique l m :
  -1 ≤ m → m ∈ -1 :: l → (∀ y, y ∈ l → y ≤ m) → m = maxZ l.
Proof.
  intros Hlow Hin Hup. pose proof (maxZ_lower l).
  destruct (maxZ_elem l) as [E|E].
  - apply elem_of_cons in Hin as [->|Hin]; [done|].
    apply maxZ_upper in Hin. lia.
  - apply Hup in E. apply elem_of_cons in Hin as [->|Hin]; [lia|].
    apply maxZ_upper in Hin. lia.
Qed.

Global Instance sumZ_perm : Proper ((≡ₚ) ==> (=)) sumZ.
Proof. induction 1; rewrite ?sumZ_cons; lia. Qed.

Global Instance maxZ_perm : Proper ((≡ₚ) ==> (=)) maxZ.
Proof. induction 1; rewrite ?maxZ_cons; lia. Qed.

Lemma evens_app l k : evens (l ++ k) = evens l ++ evens k.
Proof. apply filter_app. Qed.

Lemma evens_snoc l x :
  evens (l ++ [x]) = if is_even x then evens l ++ [x] else evens l.
Proof.
  rewrite evens_app. unfold evens at 2. rewrite filter_cons.
  destruct (is_even x) eqn:E.
  - rewrite decide_True by done. done.
  - rewrite decide_False by (by intros ?%Is_true_true; congruence).
    by rewrite filter_nil, app_nil_r.
Qed.

Lemma evens_concat (L : list (list Z)) :
  evens (concat L) = concat (evens <$> L).
Proof.
  induction L as [|l L IH]; simpl; [done|]. by rewrite evens_app, IH.
Qed.

Lemma elem_of_evens l x : x ∈ evens l ↔ is_even x = true ∧ x ∈ l.
Proof.
  unfold evens. rewrite list_elem_of_filter, Is_true_true. done.
Qed.

Lemma sumZ_bounds l :
  Forall is_int l →
  INT_MIN * Z.of_nat (length l) ≤ sumZ l ≤ INT_MAX * Z.of_nat (length l).
Proof.
  induction 1 as [|x l Hx _ IH]; [done|].
  rewrite sumZ_cons. cbn [length]. rewrite Nat2Z.inj_succ.
  unfold is_int, INT_MIN, INT_MAX in *.
  change (2 ^ 31) with 2147483648 in *. lia.
Qed.

Lemma index_Some a i x :
  index a i = Some x ↔ 0 ≤ i ∧ a !! Z.to_nat i = Some x.
Proof.
  unfold index. destruct (i <? 0) eqn:E.
  - apply Z.ltb_lt in E. split; [done|]. lia.
  - apply Z.ltb_ge in E. split; [by intros ?|by intros [_ ?]].
Qed.

Lemma index_in_range a i :
  0 ≤ i < Z.of_nat (length a) → ∃ x, index a i = Some x.
Proof.
  intros Hi. destruct (lookup_lt_is_Some_2 a (Z.to_nat i)) as [x Hx]; [lia|].
  exists x. apply index_Some. split; [lia|done].
Qed.

Lemma slice_empty a lo : slice a lo lo = [].
Proof. unfold slice. by rewrite Z.sub_diag. Qed.

Lemma slice_snoc a lo i x :
  0 ≤ lo ≤ i → index a i = Some x →
  slice a lo (i + 1) = slice a lo i ++ [x].
Proof.
  intros Hlo [_ Hx]%index_Some. unfold slice.
  replace (Z.to_nat (i + 1 - lo)) with (S (Z.to_nat (i - lo))) by lia.
  apply take_S_r. rewrite lookup_drop. rewrite <-Hx. f_equal. lia.
Qed.

Lemma slice_app a lo mid hi :
  0 ≤ lo ≤ mid → mid ≤ hi →
  slice a lo hi = slice a lo mid ++ slice a mid hi.
Proof.
  intros H1 H2. unfold slice.
  replace (Z.to_nat (hi - lo))
    with (Z.to_nat (mid - lo) + Z.to_nat (hi - mid))%nat by lia.
  rewrite <-take_take_drop. f_equal. rewrite drop_drop. do 2 f_equal. lia.
Qed.

Lemma slice_all a : slice a 0 (Z.of_nat (length a)) = a.
Proof.
  unfold slice. simpl. rewrite Z.sub_0_r, Nat2Z.id, drop_0.
  by rewrite firstn_all.
Qed.
End ListFacts.

(** ** The chunks cut the array into consecutive pieces *)

Section SliceFacts.
Variable a : list Z.
Variable W : Z.
Let n := Z.of_nat (length a).
Hypothesis Hsz : sizes_ok n W.

Lemma slices_upto (k : nat) :
  Z.of_nat k < W →
  concat ((λ t, slice a (start_idx n W t) (end_idx n W t))
            <$> seqZ 0 (Z.of_nat k))
  = slice a 0 (start_idx n W (Z.of_nat k)).
Proof using Hsz.
  induction k as [|k IH]; intros Hk.
  - change (Z.of_nat 0) with 0. rewrite (chunk_first n W Hsz).
    by rewrite slice_empty.
  - rewrite seqZ_S, fmap_app, concat_app, IH by lia.
    cbn [fmap list_fmap concat]. rewrite app_nil_r, Z.add_0_l.
    rewrite (chunk_adjacent n W Hsz) by lia.
    replace (Z.of_nat (S k)) with (Z.of_nat k + 1) by lia.
    pose proof (chunk_range_bounds n W Hsz (Z.of_nat k) ltac:(lia)).
    pose proof (chunk_range_bounds n W Hsz (Z.of_nat k + 1) ltac:(lia)).
    pose proof (chunk_adjacent n W Hsz (Z.of_nat k) ltac:(lia)).
    symmetry. apply slice_app; lia.
Qed.

Lemma slices_concat :
  concat ((λ t, slice a (start_idx n W t) (end_idx n W t)) <$> seqZ 0 W)
  = a.
Proof using Hsz.
  destruct Hsz as [Hn HW].
  assert (seqZ 0 W = seqZ 0 (Z.of_nat (Z.to_nat (W - 1))) ++ [W - 1]) as ->.
  { rewrite <-(Z2Nat.id W) at 1 by lia.
    replace (Z.to_nat W) with (S (Z.to_nat (W - 1))) by lia.
    rewrite seqZ_S. do 2 f_equal. lia. }
  rewrite fmap_app, concat_app, slices_upto by lia.
  cbn [fmap list_fmap concat]. rewrite app_nil_r.
  replace (Z.of_nat (Z.to_nat (W - 1))) with (W - 1) by lia.
  rewrite (chunk_last n W Hsz).
  pose proof (chunk_range_bounds n W Hsz (W - 1) ltac:(lia)).
  rewrite (chunk_last n W Hsz) in *.
  rewrite <-slice_app by lia. apply slice_all.
Qed.

Lemma evens_slices_concat :
  concat ((λ t, evens (slice a (start_idx n W t) (end_idx n W t)))
            <$> seqZ 0 W)
  = evens a.
Proof using Hsz.
  rewrite <-slices_concat at 1. rewrite evens_concat, <-list_fmap_compose.
  done.
Qed.
End SliceFacts.

(** ** The sequential version *)

Lemma seq_fold a l :
  foldl seq_body (reset a) l
  = Store a (wrap 64 (sumZ (evens l))) (maxZ (evens l)).
Proof.
  induction l as [|x l IH] using rev_ind; [done|].
  rewrite foldl_snoc, IH, evens_snoc. unfold seq_body. cbn [arr sum_even max_even].
  destruct (is_even x); [|done].
  unfold ll_add. rewrite wrap_64_add_l, sumZ_app, maxZ_app.
  change (sumZ [x]) with (x + 0). change (maxZ [x]) with (Z.max x (-1)).
  rewrite Z.add_0_r. pose proof (maxZ_lower (evens l)).
  destruct (x >? maxZ (evens l)) eqn:E; f_equal; lia.
Qed.

Lemma sequential_eq a :
  sequential a = Store a (wrap 64 (sumZ (evens a))) (maxZ (evens a)).
Proof. apply seq_fold. Qed.

(** Under [array_ok] the exact sum of the even elements fits [long long]. *)
Lemma evens_sum_fits a : array_ok a → wrap 64 (sumZ (evens a)) = sumZ (evens a).
Proof.
  intros [Hint Hlen]. apply wrap_64_id, (proj2 (llong_bounds _)).
  assert (Forall is_int (evens a)) as Hev.
  { apply Forall_forall. intros x [_ Hx]%elem_of_evens.
    by eapply Forall_forall in Hint. }
  pose proof (sumZ_bounds _ Hev) as Hb.
  pose proof (length_filter (λ x, is_even x) a) as Hf. fold (evens a) in Hf.
  unfold INT_MIN, INT_MAX in *. change (2 ^ 31) with 2147483648 in *. nia.
Qed.

Lemma maxZ_is_int l : Forall is_int l → is_int (maxZ l).
Proof.
  intros Hint. destruct (maxZ_elem l) as [->|Hin]; [by apply (proj2 (int_bounds _))|].
  by eapply Forall_forall in Hint.
Qed.

(** ** Pools of threads *)

Section PoolFacts.
Context {T : Type}.
Implicit Types (pool : list T) (f : T → list Z).

Lemma pool_insert_same f pool t th th' :
  pool !! t = Some th → f th' = f th →
  f <$> <[t:=th']> pool = f <$> pool.
Proof.
  intros Ht Hf. rewrite list_fmap_insert, Hf. apply list_insert_id.
  by rewrite list_lookup_fmap, Ht.
Qed.

Lemma pool_insert_snoc f pool t th th' x :
  pool !! t = Some th → f th' = f th ++ [x] →
  concat (f <$> <[t:=th']> pool) ≡ₚ x :: concat (f <$> pool).
Proof.
  intros Ht Hf. pose proof (lookup_lt_Some _ _ _ Ht) as Hlt.
  rewrite insert_take_drop by done.
  rewrite <-(take_drop_middle pool t th Ht) at 3.
  rewrite !fmap_app, !fmap_cons, !concat_app, !concat_cons, Hf.
  rewrite <-!app_assoc. cbn [app]. symmetry.
  rewrite (app_assoc _ (f th) (x :: _)). apply Permutation_cons_app.
  by rewrite <-app_assoc.
Qed.

Lemma pool_sum_same f pool t th th' :
  pool !! t = Some th → f th' = f th →
  sumZ (concat (f <$> <[t:=th']> pool)) = sumZ (concat (f <$> pool)).
Proof. intros Ht Hf. by rewrite (pool_insert_same f pool t th th'). Qed.

Lemma pool_max_same f pool t th th' :
  pool !! t = Some th → f th' = f th →
  maxZ (concat (f <$> <[t:=th']> pool)) = maxZ (concat (f <$> pool)).
Proof. intros Ht Hf. by rewrite (pool_insert_same f pool t th th'). Qed.

Lemma pool_sum_snoc f pool t th th' x :
  pool !! t = Some th → f th' = f th ++ [x] →
  sumZ (concat (f <$> <[t:=th']> pool)) = sumZ (concat (f <$> pool)) + x.
Proof.
  intros Ht Hf. rewrite (pool_insert_snoc f pool t th th' x Ht Hf).
  rewrite sumZ_cons. lia.
Qed.

Lemma pool_max_snoc f pool t th th' x :
  pool !! t = Some th → f th' = f th ++ [x] →
  maxZ (concat (f <$> <[t:=th']> pool))
  = Z.max (maxZ (concat (f <$> pool))) x.
Proof.
  intros Ht Hf. rewrite (pool_insert_snoc f pool t th th' x Ht Hf).
  rewrite maxZ_cons. lia.
Qed.
End PoolFacts.

Lemma int_succ i : 0 ≤ i < INT_MAX → int_add i 1 = i + 1.
Proof.
  intros Hi. apply wrap_32_id, (proj2 (int_bounds _)). unfold INT_MAX in Hi.
  change (2 ^ 31) with 2147483648 in Hi. lia.
Qed.

Lemma evens_slice_odd a lo i x :
  0 ≤ lo ≤ i → index a i = Some x → is_even x = false →
  evens (slice a lo (i + 1)) = evens (slice a lo i).
Proof.
  intros Hlo Hx Hev. by rewrite (slice_snoc a lo i x), evens_snoc, Hev.
Qed.

Lemma evens_slice_even a lo i x :
  0 ≤ lo ≤ i → index a i = Some x → is_even x = true →
  evens (slice a lo (i + 1)) = evens (slice a lo i) ++ [x].
Proof.
  intros Hlo Hx Hev. by rewrite (slice_snoc a lo i x), evens_snoc, Hev.
Qed.

(** ** Invariant of the version with a mutex *)

Lemma concat_fmap_nil {T} (f : T → list Z) (pool : list T) :
  (∀ th, th ∈ pool → f th = []) → concat (f <$> pool) = [].
Proof.
  induction pool as [|th pool IH]; intros H; [done|].
  rewrite fmap_cons, concat_cons, H, IH; [done| |left].
  intros ? ?. apply H. by right.
Qed.

Section MutexFacts.
Variable W : Z.
Variable a : list Z.
Let n := Z.of_nat (length a).
Hypothesis Hsz : sizes_ok n W.

Lemma minit_inv : minv W a (minit W a).
Proof using Hsz.
  assert (∀ t th, (mspawn n W <$> seqZ 0 W) !! t = Some th →
                  th = mspawn n W (Z.of_nat t) ∧ 0 ≤ Z.of_nat t < W) as Hlk.
  { intros t th (z & -> & [-> ?]%lookup_seqZ)%list_lookup_fmap_Some.
    rewrite Z.add_0_l. split; [done|lia]. }
  split; cbn [minit m_store mtx m_threads reset arr sum_even max_even]; fold n.
  - done.
  - by rewrite length_fmap, length_seqZ.
  - intros t th [-> _]%Hlk. done.
  - intros t th [-> Ht]%Hlk. unfold mthread_ok, mspawn. cbn [m_pc m_start m_end].
    pose proof (chunk_range_bounds n W Hsz _ Ht). lia.
  - intros t th [-> _]%Hlk. done.
  - done.
  - rewrite concat_fmap_nil; [done|].
    intros th (z & -> & _)%list_elem_of_fmap. unfold m_summed, m_pos, mspawn.
    cbn [m_pc m_start m_end]. by rewrite slice_empty.
  - rewrite concat_fmap_nil; [done|].
    intros th (z & -> & _)%list_elem_of_fmap. unfold m_maxed, m_pos, mspawn.
    cbn [m_pc m_start m_end]. by rewrite slice_empty.
Qed.

(** Re-establishing the invariant after thread [t] has moved to [pc']. *)
Lemma minv_update σ t th pc' sm' mx' lk' :
  minv W a σ → m_threads σ !! t = Some th →
  let th' := MThread (m_start th) (m_end th) pc' in
  mthread_ok a mx' th' →
  (in_crit pc' = true ↔ lk' = Some t) →
  (lk' = mtx σ ∧ mx' = max_even (m_store σ))
    ∨ ((mtx σ = None ∨ mtx σ = Some t) ∧ (lk' = None ∨ lk' = Some t)) →
  sm' = wrap 64 (sumZ (concat (m_summed a <$> <[t:=th']> (m_threads σ)))) →
  mx' = maxZ (concat (m_maxed a <$> <[t:=th']> (m_threads σ))) →
  minv W a (MState (Store a sm' mx') lk' (<[t:=th']> (m_threads σ))).
Proof.
  intros [Harr Hlen Hshape Hok Hcrit Hown Hsum Hmax] Hth th' Hok' Hiff Hoth Hs Hm.
  pose proof (lookup_lt_Some _ _ _ Hth) as Hlt.
  assert (∀ t' th'', t' ≠ t → m_threads σ !! t' = Some th'' →
            in_crit (m_pc th'') = true → lk' = mtx σ ∧ mx' = max_even (m_store σ))
    as Hother.
  { intros t' th'' Hne Hth'' Hc. destruct Hoth as [?|[Hl _]]; [done|].
    specialize (Hcrit _ _ Hth'' Hc). destruct Hl; congruence. }
  split; cbn [m_store mtx m_threads arr sum_even max_even].
  - done.
  - by rewrite length_insert.
  - intros t' th''. destruct (decide (t' = t)) as [->|Hne].
    + rewrite list_lookup_insert_eq by done. intros [= <-]. exact (Hshape _ _ Hth).
    + rewrite list_lookup_insert_ne by done. apply Hshape.
  - intros t' th''. destruct (decide (t' = t)) as [->|Hne].
    + rewrite list_lookup_insert_eq by done. by intros [= <-].
    + rewrite list_lookup_insert_ne by done. intros Hth''.
      pose proof (Hok _ _ Hth'') as Hk.
      destruct (in_crit (m_pc th'')) eqn:Hc.
      * destruct (Hother _ _ Hne Hth'' Hc) as [_ ->]. done.
      * unfold mthread_ok in *. by destruct (m_pc th'').
  - intros t' th''. destruct (decide (t' = t)) as [->|Hne].
    + rewrite list_lookup_insert_eq by done. intros [= <-]. apply Hiff.
    + rewrite list_lookup_insert_ne by done. intros Hth'' Hc.
      destruct (Hother _ _ Hne Hth'' Hc) as [-> _]. by eapply Hcrit.
  - intros t' Hlk. destruct (decide (t' = t)) as [->|Hne].
    + exists th'. rewrite list_lookup_insert_eq by done. split; [done|].
      by apply Hiff.
    + rewrite list_lookup_insert_ne by done.
      destruct Hoth as [[-> _]|[_ [?|?]]]; [by apply Hown|congruence..].
  - done.
  - done.
Qed.

Local Ltac thread_ok_tac :=
  unfold mthread_ok in *; cbn [m_pc m_start m_end] in *;
  intuition (first [done | lia]).

Lemma mstep_at_inv σ t σ' :
  minv W a σ → mstep_at t σ = Some σ' → minv W a σ'.
Proof using Hsz.
  intros Hinv Hstep. unfold mstep_at in Hstep.
  destruct (m_threads σ !! t) as [th|] eqn:Hth; [|done].
  destruct (m_exec t th (m_store σ) (mtx σ)) as [[[s lk] pc]|] eqn:Hex;
    [|done].
  injection Hstep as <-.
  pose proof Hinv as [Harr Hlen Hshape Hok Hcrit Hown Hsum Hmax].
  pose proof (Hshape _ _ Hth) as [Hst Hen]. pose proof (Hok _ _ Hth) as Hokt.
  pose proof (lookup_lt_Some _ _ _ Hth) as Hlt.
  pose proof (chunk_range_bounds n W Hsz (Z.of_nat t) ltac:(lia)) as Hb.
  fold n in Hst, Hen. rewrite <-Hst, <-Hen in Hb.
  assert (in_crit (m_pc th) = true ↔ mtx σ = Some t) as Hiff.
  { split; [by apply Hcrit|]. intros (th0 & Hth0 & Hc)%Hown. congruence. }
  assert (n ≤ INT_MAX) as Hn by apply Hsz.
  unfold n in Hb, Hn.
  destruct σ as [[a0 sm mx] lk0 pool].
  cbn [m_store mtx m_threads arr sum_even max_even] in *. subst a0.
  destruct th as [lo hi pc0]. cbn [m_start m_end m_pc] in *.
  unfold m_exec in Hex. unfold mthread_ok in Hokt.
  cbn [m_pc m_start m_end arr sum_even max_even] in Hex, Hokt.
  destruct pc0 as [i|i x|i x|i x|i x|i x| |].
  - (* line 66 *)
    destruct (i <? hi) eqn:Hi.
    + apply Z.ltb_lt in Hi. destruct (index_in_range a i) as [x Hx]; [lia|].
      rewrite Hx in Hex.
      destruct (is_even x) eqn:Hev; injection Hex as <- <- <-.
      * apply (minv_update _ t _ (MLock i x) sm mx lk0 Hinv Hth).
        -- thread_ok_tac.
        -- done.
        -- by left.
        -- by rewrite (pool_sum_same (m_summed a) _ _ _ _ Hth).
        -- by rewrite (pool_max_same (m_maxed a) _ _ _ _ Hth).
      * rewrite int_succ by lia.
        apply (minv_update _ t _ (MLoop (i + 1)) sm mx lk0 Hinv Hth).
        -- thread_ok_tac.
        -- done.
        -- by left.
        -- rewrite (pool_sum_same (m_summed a) _ _ _ _ Hth); [done|].
           unfold m_summed, m_pos. cbn [m_pc m_start m_end].
           by rewrite (evens_slice_odd a lo i x) by (done || lia).
        -- rewrite (pool_max_same (m_maxed a) _ _ _ _ Hth); [done|].
           unfold m_maxed, m_pos. cbn [m_pc m_start m_end].
           by rewrite (evens_slice_odd a lo i x) by (done || lia).
    + apply Z.ltb_ge in Hi. injection Hex as <- <- <-.
      assert (i = hi) as -> by lia.
      apply (minv_update _ t _ MDone sm mx lk0 Hinv Hth).
      * thread_ok_tac.
      * done.
      * by left.
      * by rewrite (pool_sum_same (m_summed a) _ _ _ _ Hth).
      * by rewrite (pool_max_same (m_maxed a) _ _ _ _ Hth).
  - (* line 70 *)
    destruct lk0 as [owner|]; [done|]. injection Hex as <- <- <-.
    apply (minv_update _ t _ (MSum i x) sm mx (Some t) Hinv Hth).
    + thread_ok_tac.
    + done.
    + right. split; [by left|by right].
    + by rewrite (pool_sum_same (m_summed a) _ _ _ _ Hth).
    + by rewrite (pool_max_same (m_maxed a) _ _ _ _ Hth).
  - (* line 71 *)
    injection Hex as <- <- <-.
    apply (minv_update _ t _ (MTest i x) (ll_add sm x) mx lk0 Hinv Hth).
    + thread_ok_tac.
    + done.
    + by left.
    + rewrite (pool_sum_snoc (m_summed a) _ _ _ _ x Hth).
      * unfold ll_add. by rewrite Hsum, wrap_64_add_l.
      * unfold m_summed, m_pos. cbn [m_pc m_start m_end].
        by rewrite app_nil_r.
    + by rewrite (pool_max_same (m_maxed a) _ _ _ _ Hth).
  - (* line 72 *)
    destruct (x >? mx) eqn:Hgt; injection Hex as <- <- <-.
    + apply Z.gtb_lt in Hgt.
      apply (minv_update _ t _ (MSet i x) sm mx lk0 Hinv Hth).
      * thread_ok_tac.
      * done.
      * by left.
      * by rewrite (pool_sum_same (m_summed a) _ _ _ _ Hth).
      * by rewrite (pool_max_same (m_maxed a) _ _ _ _ Hth).
    + assert (x ≤ mx) by (destruct (Z.gtb_spec x mx); [done|lia]).
      apply (minv_update _ t _ (MUnlock i x) sm mx lk0 Hinv Hth).
      * thread_ok_tac.
      * done.
      * by left.
      * by rewrite (pool_sum_same (m_summed a) _ _ _ _ Hth).
      * rewrite (pool_max_snoc (m_maxed a) _ _ _ _ x Hth).
        -- rewrite <-Hmax. lia.
        -- unfold m_maxed, m_pos. cbn [m_pc m_start m_end].
           by rewrite app_nil_r.
  - (* line 73 *)
    injection Hex as <- <- <-.
    apply (minv_update _ t _ (MUnlock i x) sm x lk0 Hinv Hth).
    + thread_ok_tac.
    + done.
    + right. apply proj1 in Hiff. specialize (Hiff eq_refl).
      split; by right.
    + by rewrite (pool_sum_same (m_summed a) _ _ _ _ Hth).
    + rewrite (pool_max_snoc (m_maxed a) _ _ _ _ x Hth).
      * rewrite <-Hmax. lia.
      * unfold m_maxed, m_pos. cbn [m_pc m_start m_end].
        by rewrite app_nil_r.
  - (* line 75 *)
    injection Hex as <- <- <-. rewrite int_succ by lia.
    destruct Hokt as (Hi & Hx & Hev).
    apply (minv_update _ t _ (MLoop (i + 1)) sm mx None Hinv Hth).
    + thread_ok_tac.
    + done.
    + right. apply proj1 in Hiff. specialize (Hiff eq_refl).
      split; [by right|by left].
    + rewrite (pool_sum_same (m_summed a) _ _ _ _ Hth); [done|].
      unfold m_summed, m_pos. cbn [m_pc m_start m_end].
      rewrite (evens_slice_even a lo i x) by (done || lia).
      by rewrite app_nil_r.
    + rewrite (pool_max_same (m_maxed a) _ _ _ _ Hth); [done|].
      unfold m_maxed, m_pos. cbn [m_pc m_start m_end].
      rewrite (evens_slice_even a lo i x) by (done || lia).
      by rewrite app_nil_r.
  - done.
  - done.
Qed.
End MutexFacts.

Section MutexResult.
Variable W : Z.
Variable a : list Z.
Let n := Z.of_nat (length a).
Hypothesis Hsz : sizes_ok n W.

Lemma mreach_inv σ : rtc mstep (minit W a) σ → minv W a σ.
Proof using Hsz.
  intros Hr. eapply (rtc_ind_r (R:=mstep) (minv W a)); [| |exact Hr].
  - by apply minit_inv.
  - intros σ1 σ2 _ [t Ht] IH. by eapply mstep_at_inv.
Qed.

(** Once every thread has returned, the shared variables hold what the
    sequential loop computes. *)
Lemma minv_joined σ :
  minv W a σ → mjoined σ → m_store σ = sequential a.
Proof using Hsz.
  intros [Harr Hlen Hshape Hok Hcrit Hown Hsum Hmax] Hj.
  rewrite sequential_eq. rewrite <-(evens_slices_concat a W Hsz). fold n.
  assert (∀ f : mthread → list Z,
             (∀ th, m_pc th = MDone →
                    f th = evens (slice a (m_start th) (m_end th))) →
             f <$> m_threads σ
             = (λ t, evens (slice a (start_idx n W t) (end_idx n W t)))
                 <$> seqZ 0 W) as Hfm.
  { intros f Hf. apply list_eq. intros t. rewrite !list_lookup_fmap.
    destruct (m_threads σ !! t) as [th|] eqn:Hth.
    - pose proof (lookup_lt_Some _ _ _ Hth).
      rewrite lookup_seqZ_lt by lia. cbn [fmap option_fmap option_map].
      rewrite Hf by by eapply Forall_lookup_1 in Hj.
      destruct (Hshape _ _ Hth) as [-> ->]. by rewrite Z.add_0_l.
    - apply lookup_ge_None in Hth. rewrite lookup_seqZ_ge by lia. done. }
  destruct (m_store σ) as [a0 sm mx]. cbn [arr sum_even max_even] in *.
  subst a0. f_equal.
  - rewrite Hsum. do 3 f_equal. apply Hfm. intros th Hd.
    unfold m_summed, m_pos. rewrite Hd. by rewrite app_nil_r.
  - rewrite Hmax. do 2 f_equal. apply Hfm. intros th Hd.
    unfold m_maxed, m_pos. rewrite Hd. by rewrite app_nil_r.
Qed.

Lemma mutex_correct σ :
  rtc mstep (minit W a) σ → mjoined σ → m_store σ = sequential a.
Proof using Hsz. intros Hr. apply minv_joined. by apply mreach_inv. Qed.

(** No thread ever reads outside of the array. *)
Lemma mutex_no_fault σ t th :
  rtc mstep (minit W a) σ → m_threads σ !! t = Some th → m_pc th ≠ MFault.
Proof using Hsz.
  intros Hr%mreach_inv Hth Hpc. pose proof (minv_ok _ _ _ Hr _ _ Hth) as Hk.
  unfold mthread_ok in Hk. by rewrite Hpc in Hk.
Qed.

(** A thread that has not returned can move, or waits for a thread that
    can: the version with a mutex does not deadlock. *)
Lemma mutex_progress σ :
  rtc mstep (minit W a) σ → ¬ mjoined σ → ∃ σ', mstep σ σ'.
Proof using Hsz.
  intros Hr%mreach_inv Hnj.
  assert (∀ t th, m_threads σ !! t = Some th →
                  is_Some (m_exec t th (m_store σ) (mtx σ)) →
                  ∃ σ', mstep σ σ') as Hgo.
  { intros t th Hth [[[s lk] pc] Hex]. eexists. exists t.
    unfold mstep_at. by rewrite Hth, Hex. }
  assert (∀ t th, m_threads σ !! t = Some th → in_crit (m_pc th) = true →
                  ∃ σ', mstep σ σ') as Hcr.
  { intros t th Hth Hc. apply (Hgo _ _ Hth). unfold m_exec.
    destruct (m_pc th); try done. by destruct (_ >? _). }
  apply not_Forall_Exists in Hnj.
  2:{ intros th. unfold Decision. decide equality; apply Z.eq_dec. }
  apply Exists_exists in Hnj as (th & Hin & Hpc).
  apply list_elem_of_lookup in Hin as [t Hth].
  pose proof (minv_ok _ _ _ Hr _ _ Hth) as Hk. unfold mthread_ok in Hk.
  destruct (m_pc th) as [i|i x| | | | | |] eqn:Epc; try done.
  - apply (Hgo _ _ Hth). unfold m_exec. rewrite Epc.
    destruct (_ <? _); [|done]. destruct (index _ _); [|done].
    by destruct (is_even _).
  - destruct (mtx σ) as [owner|] eqn:Hlk.
    + destruct (minv_owner _ _ _ Hr _ Hlk) as (th' & Hth' & Hc). eauto.
    + apply (Hgo _ _ Hth). unfold m_exec. by rewrite Epc.
  - apply (Hcr _ _ Hth). by rewrite Epc.
  - apply (Hcr _ _ Hth). by rewrite Epc.
  - apply (Hcr _ _ Hth). by rewrite Epc.
  - apply (Hcr _ _ Hth). by rewrite Epc.
Qed.
End MutexResult.

(** ** Running a schedule *)

Lemma mrun_app s1 s2 σ : mrun (s1 ++ s2) σ = mrun s2 (mrun s1 σ).
Proof. apply foldl_app. Qed.

Lemma mrun_reach sched σ : rtc mstep σ (mrun sched σ).
Proof.
  revert σ. induction sched as [|t sched IH]; intros σ; [done|].
  change (mrun (t :: sched) σ) with (mrun sched (default σ (mstep_at t σ))).
  destruct (mstep_at t σ) as [σ1|] eqn:E; [|apply IH].
  eapply rtc_l; [by exists t|apply IH].
Qed.

Lemma mstep_at_thread t s lk pool th :
  pool !! t = Some th →
  mstep_at t (MState s lk pool)
  = match m_exec t th s lk with
    | Some (s', lk', pc) =>
        Some (MState s' lk'
                (<[t := MThread (m_start th) (m_end th) pc]> pool))
    | None => None
    end.
Proof. intros Hth. unfold mstep_at. cbn [m_threads m_store mtx]. by rewrite Hth. Qed.

Lemma mrun_cons t sched σ σ1 :
  mstep_at t σ = Some σ1 → mrun (t :: sched) σ = mrun sched σ1.
Proof. intros H. unfold mrun. cbn [foldl]. by rewrite H. Qed.

Local Ltac mstep_tac Hth rew :=
  erewrite mrun_cons;
  [|erewrite mstep_at_thread
      by first [exact Hth
               | apply list_lookup_insert_eq; apply (lookup_lt_Some _ _ _ Hth)];
    cbn [m_exec m_pc m_start m_end arr sum_even max_even]; rew; reflexivity];
  rewrite ?list_insert_insert_eq.

(** One element of its range, by a thread that runs alone. *)
Lemma m_element σ t lo hi i x :
  mtx σ = None → m_threads σ !! t = Some (MThread lo hi (MLoop i)) →
  i < hi → index (arr (m_store σ)) i = Some x →
  ∃ sched, let σ' := mrun sched σ in
    mtx σ' = None ∧ arr (m_store σ') = arr (m_store σ) ∧
    m_threads σ' = <[t := MThread lo hi (MLoop (int_add i 1))]> (m_threads σ).
Proof.
  destruct σ as [[a0 sm mx] lk pool].
  cbn [m_store mtx m_threads arr]. intros -> Hth Hi%Z.ltb_lt Hx.
  destruct (is_even x) eqn:Hev; [destruct (x >? mx) eqn:Hgt|].
  - exists (replicate 6 t). cbn [replicate].
    do 6 mstep_tac Hth ltac:(rewrite ?Hi, ?Hx, ?Hev, ?Hgt). done.
  - exists (replicate 5 t). cbn [replicate].
    do 5 mstep_tac Hth ltac:(rewrite ?Hi, ?Hx, ?Hev, ?Hgt). done.
  - exists [t]. mstep_tac Hth ltac:(rewrite ?Hi, ?Hx, ?Hev). done.
Qed.

(** A thread that runs alone, with the mutex free, finishes its range. *)
Lemma msolo (k : nat) σ t lo hi i :
  mtx σ = None → m_threads σ !! t = Some (MThread lo hi (MLoop i)) →
  0 ≤ i → hi ≤ Z.of_nat (length (arr (m_store σ))) → hi ≤ INT_MAX →
  (Z.to_nat (hi - i) ≤ k)%nat →
  ∃ sched, let σ' := mrun sched σ in
    mtx σ' = None ∧ arr (m_store σ') = arr (m_store σ) ∧
    m_threads σ' = <[t := MThread lo hi MDone]> (m_threads σ).
Proof.
  revert σ i. induction k as [|k IH]; intros σ i Hlk Hth Hi0 Hhi Hmax Hk.
  all: destruct (Z.ltb_spec i hi) as [Hi|Hi]; [|try clear IH].
  1: lia.
  2: { destruct (index_in_range (arr (m_store σ)) i) as [x Hx]; [lia|].
       destruct (m_element σ t lo hi i x Hlk Hth Hi Hx)
         as (s1 & Hlk1 & Harr1 & Hth1).
       cbn zeta in *. rewrite int_succ in Hth1 by lia.
       destruct (IH (mrun s1 σ) (i + 1)) as (s2 & Hlk2 & Harr2 & Hth2);
         [done| |lia|by rewrite Harr1|done|lia|].
       { rewrite Hth1. apply list_lookup_insert_eq. by eapply lookup_lt_Some. }
       exists (s1 ++ s2). cbn zeta in *. rewrite mrun_app.
       split; [done|]. split; [congruence|].
       by rewrite Hth2, Hth1, list_insert_insert_eq. }
  all: exists [t]; destruct σ as [[a0 sm mx] lk pool];
    cbn [m_store mtx m_threads arr] in *; subst lk;
    apply Z.ltb_ge in Hi; mstep_tac Hth ltac:(rewrite ?Hi); done.
Qed.

Section MutexTermination.
Variable W : Z.
Variable a : list Z.
Let n := Z.of_nat (length a).
Hypothesis Hsz : sizes_ok n W.

Lemma minit_lookup t th :
  m_threads (minit W a) !! t = Some th →
  th = mspawn n W (Z.of_nat t) ∧ 0 ≤ Z.of_nat t < W.
Proof.
  unfold minit. cbn [m_threads]. fold n.
  intros (z & -> & [-> ?]%lookup_seqZ)%list_lookup_fmap_Some.
  rewrite Z.add_0_l. split; [done|lia].
Qed.

(** The schedule that lets the threads run one after the other. *)
Lemma mall (k : nat) :
  (k ≤ Z.to_nat W)%nat →
  ∃ sched, let σ' := mrun sched (minit W a) in
    mtx σ' = None ∧ arr (m_store σ') = a ∧
    length (m_threads σ') = Z.to_nat W ∧
    ∀ t th, m_threads σ' !! t = Some th →
      ((t < k)%nat → m_pc th = MDone) ∧
      ((k ≤ t)%nat → th = mspawn n W (Z.of_nat t)).
Proof using Hsz.
  induction k as [|k IH]; intros Hk.
  - exists []. cbn zeta. change (mrun [] (minit W a)) with (minit W a).
    split; [done|]. split; [done|]. split.
    + unfold minit. cbn [m_threads]. by rewrite length_fmap, length_seqZ.
    + intros t th [-> _]%minit_lookup. split; [lia|done].
  - destruct IH as (s1 & Hlk & Harr & Hlen & Hths); [lia|]. cbn zeta in *.
    destruct (lookup_lt_is_Some_2 (m_threads (mrun s1 (minit W a))) k)
      as [th Hth]; [lia|].
    destruct (Hths _ _ Hth) as [_ Hsp]. specialize (Hsp (le_n _)).
    rewrite Hsp in Hth. unfold mspawn in Hth.
    pose proof (chunk_range_bounds n W Hsz (Z.of_nat k) ltac:(lia)) as Hb.
    assert (n ≤ INT_MAX) as Hn by apply Hsz.
    destruct (msolo (Z.to_nat (end_idx n W (Z.of_nat k)
                               - start_idx n W (Z.of_nat k)))
                _ _ _ _ _ Hlk Hth) as (s2 & Hlk2 & Harr2 & Hth2);
      [lia|rewrite Harr; fold n; lia|lia|lia|].
    cbn zeta in *. exists (s1 ++ s2). rewrite mrun_app.
    split; [done|]. split; [congruence|]. split.
    + by rewrite Hth2, length_insert.
    + intros t th'. rewrite Hth2.
      destruct (decide (t = k)) as [->|Hne].
      * rewrite list_lookup_insert_eq by lia. intros [= <-].
        split; [done|lia].
      * rewrite list_lookup_insert_ne by done. intros [H1 H2]%Hths.
        split; intros ?; [apply H1|apply H2]; lia.
Qed.

(** Some schedule lets every thread return. *)
Lemma mutex_terminates : ∃ sched, mjoined (mrun sched (minit W a)).
Proof using Hsz.
  destruct (mall (Z.to_nat W) (le_n _)) as (sched & _ & _ & Hlen & Hths).
  exists sched. apply Forall_lookup. intros t th Hth.
  apply (Hths _ _ Hth). apply lookup_lt_Some in Hth. lia.
Qed.

Lemma mutex_returns : ∃ σ, rtc mstep (minit W a) σ ∧ mjoined σ.
Proof using Hsz.
  destruct mutex_terminates as [sched Hj]. eexists. split; [|exact Hj].
  apply mrun_reach.
Qed.
End MutexTermination.

(** ** Every run of the mutex version ends *)

Lemma sum_list_with_insert {T} (f : T → nat) (pool : list T) t th th' :
  pool !! t = Some th →
  (sum_list_with f (<[t:=th']> pool) + f th
   = sum_list_with f pool + f th')%nat.
Proof.
  intros Ht. pose proof (lookup_lt_Some _ _ _ Ht) as Hlt.
  rewrite insert_take_drop by done.
  rewrite <-(take_drop_middle pool t th Ht) at 3.
  rewrite !sum_list_with_app. cbn [sum_list_with]. lia.
Qed.

Section MutexMeasure.
Variable W : Z.
Variable a : list Z.
Let n := Z.of_nat (length a).
Hypothesis Hsz : sizes_ok n W.

(** Every step of the mutex version uses up some of the measure. *)
Lemma mstep_measure σ σ' :
  minv W a σ → mstep σ σ' → (m_measure σ' < m_measure σ)%nat.
Proof using Hsz.
  intros Hinv [t Hstep]. unfold mstep_at in Hstep.
  destruct (m_threads σ !! t) as [th|] eqn:Hth; [|done].
  destruct (m_exec t th (m_store σ) (mtx σ)) as [[[s lk] pc]|] eqn:Hex;
    [|done].
  injection Hstep as <-. unfold m_measure. cbn [m_threads].
  pose proof (sum_list_with_insert m_weight _ _ _
                (MThread (m_start th) (m_end th) pc) Hth) as Hins.
  enough (m_weight (MThread (m_start th) (m_end th) pc) < m_weight th)%nat
    by lia.
  pose proof (minv_ok _ _ _ Hinv _ _ Hth) as Hok.
  pose proof (minv_shape _ _ _ Hinv _ _ Hth) as [Hst Hen].
  pose proof (lookup_lt_Some _ _ _ Hth) as Hlt.
  pose proof (minv_len _ _ _ Hinv) as Hlen.
  pose proof (chunk_range_bounds n W Hsz (Z.of_nat t) ltac:(lia)) as Hb.
  fold n in Hst, Hen. rewrite <-Hst, <-Hen in Hb.
  assert (n ≤ INT_MAX) as Hn by apply Hsz.
  clear Hins Hth Hst Hen Hinv. destruct th as [lo hi pc0].
  unfold m_exec in Hex. unfold mthread_ok in Hok. unfold m_weight.
  cbn [m_pc m_start m_end] in *.
  destruct pc0 as [i|i x|i x|i x|i x|i x| |]; try done.
  - destruct (Z.ltb_spec i hi) as [Hi|Hi].
    + destruct (index (arr (m_store σ)) i) as [x|];
        [destruct (is_even x)|]; injection Hex as <- <- <-;
        rewrite ?int_succ by lia; lia.
    + injection Hex as <- <- <-. lia.
  - destruct (mtx σ); [done|]. injection Hex as <- <- <-. lia.
  - injection Hex as <- <- <-. lia.
  - destruct (x >? max_even (m_store σ)); injection Hex as <- <- <-; lia.
  - injection Hex as <- <- <-. lia.
  - injection Hex as <- <- <-. rewrite int_succ by lia. lia.
Qed.

(** So no run of the mutex version is longer than the measure of its
    first state. *)
Lemma mutex_run_bounded k σ :
  nsteps mstep k (minit W a) σ → (k ≤ m_measure (minit W a))%nat.
Proof using Hsz.
  intros Hn.
  enough (∀ σ0, minv W a σ0 → nsteps mstep k σ0 σ →
                (k + m_measure σ ≤ m_measure σ0)%nat) as H.
  { specialize (H _ (minit_inv W a Hsz) Hn). lia. }
  clear Hn. intros σ0 Hinv Hn. induction Hn as [|k σ0 σ1 σ2 H01 _ IH]; [lia|].
  pose proof (mstep_measure _ _ Hinv H01).
  destruct H01 as [t Ht].
  pose proof (mstep_at_inv W a Hsz _ _ _ Hinv Ht) as Hinv1.
  specialize (IH Hinv1). lia.
Qed.

(** Every run of the mutex version can be continued until all threads
    have returned. *)
Lemma mutex_completes σ :
  rtc mstep (minit W a) σ → ∃ σ', rtc mstep σ σ' ∧ mjoined σ'.
Proof using Hsz.
  remember (m_measure σ) as k eqn:Hk. revert σ Hk.
  induction k as [k IH] using lt_wf_ind. intros σ -> Hr.
  destruct (decide (mjoined σ)) as [Hj|Hnj].
  { exists σ. done. }
  destruct (mutex_progress W a Hsz σ Hr Hnj) as [σ1 H1].
  pose proof (mstep_measure _ _ (mreach_inv W a Hsz _ Hr) H1) as Hlt.
  destruct (IH _ Hlt σ1 eq_refl) as (σ' & Hr' & Hj').
  { eapply rtc_r; done. }
  exists σ'. split; [|done]. by eapply rtc_l.
Qed.
End MutexMeasure.

(** ** Invariant of the lock-free version *)

Lemma history_older σ v :
  max_history_increasing σ → v ∈ atomic_max_old σ → v < atomic_max σ.
Proof.
  intros [_ Hall]%StronglySorted_inv Hv. by eapply Forall_forall in Hall.
Qed.

Lemma history_bound σ v :
  max_history_increasing σ → v ∈ atomic_max σ :: atomic_max_old σ →
  v ≤ atomic_max σ.
Proof.
  intros Hm [->|Hv]%elem_of_cons; [done|].
  pose proof (history_older _ _ Hm Hv). lia.
Qed.

Section AtomicFacts.
Variable W : Z.
Variable a : list Z.
Let n := Z.of_nat (length a).
Hypothesis Hsz : sizes_ok n W.

Lemma ainit_lookup t th :
  a_threads (ainit W a) !! t = Some th →
  th = aspawn n W (Z.of_nat t) ∧ 0 ≤ Z.of_nat t < W.
Proof.
  unfold ainit. cbn [a_threads]. fold n.
  intros (z & -> & [-> ?]%lookup_seqZ)%list_lookup_fmap_Some.
  rewrite Z.add_0_l. split; [done|lia].
Qed.

Lemma ainit_inv : ainv W a (ainit W a).
Proof using Hsz.
  split.
  - done.
  - unfold ainit. cbn [a_threads]. by rewrite length_fmap, length_seqZ.
  - intros t th [-> _]%ainit_lookup. done.
  - intros t th [-> Ht]%ainit_lookup. unfold athread_ok, aspawn.
    cbn [a_pc a_start a_end].
    pose proof (chunk_range_bounds n W Hsz _ Ht). lia.
  - intros t th y [-> Ht]%ainit_lookup. unfold a_behind, a_pos, aspawn.
    cbn [a_pc a_start a_end]. rewrite slice_empty. by intros ?%elem_of_nil.
  - unfold ainit. cbn [a_threads atomic_sum].
    rewrite concat_fmap_nil; [done|].
    intros th (z & -> & _)%list_elem_of_fmap.
    unfold a_summed, a_behind, a_pos, aspawn.
    cbn [a_pc a_start a_end]. by rewrite slice_empty.
  - unfold max_history_increasing, ainit. cbn [atomic_max atomic_max_old].
    by repeat constructor.
  - left.
  - done.
Qed.

(** Re-establishing the invariant after thread [t] has moved to [pc']. *)
Lemma ainv_update σ t th pc' sm' mx' old' :
  ainv W a σ → a_threads σ !! t = Some th →
  let th' := AThread (a_start th) (a_end th) pc' in
  athread_ok a mx' old' th' →
  (∀ y, y ∈ a_behind a th' → y ≤ mx') →
  (mx' = atomic_max σ ∧ old' = atomic_max_old σ)
    ∨ (atomic_max σ < mx' ∧ old' = atomic_max σ :: atomic_max_old σ
       ∧ mx' ∈ evens a) →
  sm' = wrap 64 (sumZ (concat (a_summed a <$> <[t:=th']> (a_threads σ)))) →
  ainv W a (AState a sm' mx' old' (<[t:=th']> (a_threads σ))).
Proof.
  intros [Harr Hlen Hshape Hok Hbeh Hsum Hmono Helem Hlow] Hth th'
         Hok' Hbeh' Hmx Hs.
  pose proof (lookup_lt_Some _ _ _ Hth) as Hlt.
  assert (atomic_max σ ≤ mx') as Hle by (destruct Hmx as [[-> _]|[? _]]; lia).
  split; cbn [a_arr atomic_sum atomic_max atomic_max_old a_threads].
  - done.
  - by rewrite length_insert.
  - intros t' th''. destruct (decide (t' = t)) as [->|Hne].
    + rewrite list_lookup_insert_eq by done. intros [= <-].
      exact (Hshape _ _ Hth).
    + rewrite list_lookup_insert_ne by done. apply Hshape.
  - intros t' th''. destruct (decide (t' = t)) as [->|Hne].
    + rewrite list_lookup_insert_eq by done. by intros [= <-].
    + rewrite list_lookup_insert_ne by done. intros Hk%Hok.
      unfold athread_ok in *. destruct (a_pc th''); try done.
      destruct Hk as (? & ? & ? & Hin).
      split; [done|]. split; [done|]. split; [done|].
      destruct Hmx as [[-> ->]|(_ & -> & _)]; [done|by right].
  - intros t' th'' y. destruct (decide (t' = t)) as [->|Hne].
    + rewrite list_lookup_insert_eq by done. intros [= <-]. apply Hbeh'.
    + rewrite list_lookup_insert_ne by done. intros Hth'' Hy.
      pose proof (Hbeh _ _ _ Hth'' Hy). lia.
  - done.
  - unfold max_history_increasing in *.
    cbn [atomic_max atomic_max_old].
    destruct Hmx as [[-> ->]|(Hlt' & -> & _)]; [done|].
    constructor; [done|]. constructor; [done|].
    apply Forall_forall. intros v Hv.
    pose proof (history_older _ _ Hmono Hv). lia.
  - destruct Hmx as [[-> _]|(_ & _ & ?)]; [done|by right].
  - lia.
Qed.

Local Ltac athread_ok_tac :=
  unfold athread_ok in *; cbn [a_pc a_start a_end] in *;
  intuition (first [done | lia]).

Lemma astep_at_inv σ t c σ' :
  ainv W a σ → astep_at t c σ = Some σ' → ainv W a σ'.
Proof using Hsz.
  intros Hinv Hstep. unfold astep_at in Hstep.
  destruct (a_threads σ !! t) as [th|] eqn:Hth; [|done].
  destruct (a_exec c th σ) as [[[[sm' mx'] old'] pc]|] eqn:Hex; [|done].
  injection Hstep as <-.
  pose proof Hinv as [Harr Hlen Hshape Hok Hbeh Hsum Hmono Helem Hlow].
  pose proof (Hshape _ _ Hth) as [Hst Hen]. pose proof (Hok _ _ Hth) as Hokt.
  pose proof (λ y, Hbeh t th y Hth) as Hbeht.
  pose proof (lookup_lt_Some _ _ _ Hth) as Hlt.
  pose proof (chunk_range_bounds n W Hsz (Z.of_nat t) ltac:(lia)) as Hb.
  fold n in Hst, Hen. rewrite <-Hst, <-Hen in Hb.
  assert (n ≤ INT_MAX) as Hn by apply Hsz.
  unfold n in Hb, Hn.
  pose proof (λ v, history_bound _ v Hmono) as Hhist.
  destruct σ as [a0 sm mx old pool].
  cbn [a_arr atomic_sum atomic_max atomic_max_old a_threads] in *. subst a0.
  destruct th as [lo hi pc0]. cbn [a_start a_end a_pc] in *.
  unfold a_exec in Hex. unfold athread_ok in Hokt.
  unfold a_behind, a_pos in Hbeht.
  cbn [a_pc a_start a_end a_arr atomic_sum atomic_max atomic_max_old]
    in Hex, Hokt, Hbeht.
  destruct pc0 as [i|i x|i x|i x cur| |].
  - (* line 100 *)
    destruct (i <? hi) eqn:Hi.
    + apply Z.ltb_lt in Hi. destruct (index_in_range a i) as [x Hx]; [lia|].
      rewrite Hx in Hex.
      destruct (is_even x) eqn:Hev; injection Hex as <- <- <- <-.
      * apply (ainv_update _ t _ (AAdd i x) sm mx old Hinv Hth).
        -- athread_ok_tac.
        -- exact Hbeht.
        -- by left.
        -- by rewrite (pool_sum_same (a_summed a) _ _ _ _ Hth).
      * rewrite int_succ by lia.
        assert (evens (slice a lo (i + 1)) = evens (slice a lo i)) as Hsl
            by (apply (evens_slice_odd a lo i x); done || lia).
        apply (ainv_update _ t _ (ALoop (i + 1)) sm mx old Hinv Hth).
        -- athread_ok_tac.
        -- unfold a_behind, a_pos. cbn [a_pc a_start a_end].
           by rewrite Hsl.
        -- by left.
        -- rewrite (pool_sum_same (a_summed a) _ _ _ _ Hth); [done|].
           unfold a_summed, a_behind, a_pos. cbn [a_pc a_start a_end].
           by rewrite Hsl.
    + apply Z.ltb_ge in Hi. injection Hex as <- <- <- <-.
      assert (i = hi) as -> by lia.
      apply (ainv_update _ t _ ADone sm mx old Hinv Hth).
      * done.
      * exact Hbeht.
      * by left.
      * by rewrite (pool_sum_same (a_summed a) _ _ _ _ Hth).
  - (* line 104 *)
    injection Hex as <- <- <- <-.
    apply (ainv_update _ t _ (ALoad i x) (ll_add sm x) mx old Hinv Hth).
    + athread_ok_tac.
    + exact Hbeht.
    + by left.
    + rewrite (pool_sum_snoc (a_summed a) _ _ _ _ x Hth).
      * unfold ll_add. by rewrite Hsum, wrap_64_add_l.
      * unfold a_summed. cbn [a_pc]. by rewrite app_nil_r.
  - (* line 106 *)
    injection Hex as <- <- <- <-.
    apply (ainv_update _ t _ (ACas i x _) sm mx old Hinv Hth).
    + unfold athread_ok. cbn [a_pc a_start a_end].
      destruct Hokt as (? & ? & ?). split; [done|]. split; [done|].
      split; [done|].
      destruct ((mx :: old) !! stale c) as [v|] eqn:Hv; [|left].
      by apply list_elem_of_lookup_2 in Hv.
    + exact Hbeht.
    + by left.
    + by rewrite (pool_sum_same (a_summed a) _ _ _ _ Hth).
  - (* lines 107-108 *)
    destruct Hokt as (Hi & Hx & Hev & Hcur).
    assert (evens (slice a lo (i + 1)) = evens (slice a lo i) ++ [x]) as Hsl
        by (apply (evens_slice_even a lo i x); done || lia).
    destruct (x >? cur) eqn:Hgt.
    + apply Z.gtb_lt in Hgt.
      destruct ((mx =? cur) && negb (spurious c)) eqn:Hcas;
        injection Hex as <- <- <- <-.
      * apply andb_true_iff in Hcas as [Heq%Z.eqb_eq _]. subst cur.
        rewrite int_succ by lia.
        apply (ainv_update _ t _ (ALoop (i + 1)) sm x (mx :: old) Hinv Hth).
        -- athread_ok_tac.
        -- unfold a_behind, a_pos. cbn [a_pc a_start a_end]. rewrite Hsl.
           intros y [Hy%Hbeht|Hy%list_elem_of_singleton]%elem_of_app; lia.
        -- right. split; [done|]. split; [done|].
           apply elem_of_evens. split; [done|].
           apply index_Some in Hx as [_ Hx].
           by apply list_elem_of_lookup_2 in Hx.
        -- rewrite (pool_sum_same (a_summed a) _ _ _ _ Hth); [done|].
           unfold a_summed, a_behind, a_pos. cbn [a_pc a_start a_end].
           by rewrite Hsl, app_nil_r.
      * apply (ainv_update _ t _ (ACas i x mx) sm mx old Hinv Hth).
        -- unfold athread_ok. cbn [a_pc a_start a_end].
           split; [done|]. split; [done|]. split; [done|left].
        -- exact Hbeht.
        -- by left.
        -- by rewrite (pool_sum_same (a_summed a) _ _ _ _ Hth).
    + assert (x ≤ cur) by (destruct (Z.gtb_spec x cur); [done|lia]).
      injection Hex as <- <- <- <-. rewrite int_succ by lia.
      apply Hhist in Hcur.
      apply (ainv_update _ t _ (ALoop (i + 1)) sm mx old Hinv Hth).
      * athread_ok_tac.
      * unfold a_behind, a_pos. cbn [a_pc a_start a_end]. rewrite Hsl.
        intros y [Hy%Hbeht|Hy%list_elem_of_singleton]%elem_of_app; lia.
      * by left.
      * rewrite (pool_sum_same (a_summed a) _ _ _ _ Hth); [done|].
        unfold a_summed, a_behind, a_pos. cbn [a_pc a_start a_end].
        by rewrite Hsl, app_nil_r.
  - done.
  - done.
Qed.

Lemma areach_inv σ : rtc astep (ainit W a) σ → ainv W a σ.
Proof using Hsz.
  intros Hr. eapply (rtc_ind_r (R:=astep) (ainv W a)); [| |exact Hr].
  - by apply ainit_inv.
  - intros σ1 σ2 _ (t & c & Ht) IH. by eapply astep_at_inv.
Qed.
End AtomicFacts.

Lemma elem_of_concat_fmap {T} (f : T → list Z) (pool : list T) y :
  y ∈ concat (f <$> pool) → ∃ th, th ∈ pool ∧ y ∈ f th.
Proof.
  induction pool as [|th pool IH]; [by intros ?%elem_of_nil|].
  rewrite fmap_cons, concat_cons.
  intros [Hy|Hy]%elem_of_app.
  - exists th. split; [left|done].
  - destruct (IH Hy) as (th' & ? & ?). exists th'. split; [by right|done].
Qed.

Section AtomicResult.
Variable W : Z.
Variable a : list Z.
Let n := Z.of_nat (length a).
Hypothesis Hsz : sizes_ok n W.

(** Once every thread has returned, the atomics hold what the sequential
    loop computes. *)
Lemma ainv_joined σ :
  ainv W a σ → ajoined σ →
  atomic_sum σ = sum_even (sequential a) ∧
  atomic_max σ = max_even (sequential a).
Proof using Hsz.
  intros [Harr Hlen Hshape Hok Hbeh Hsum Hmono Helem Hlow] Hj.
  rewrite sequential_eq. cbn [sum_even max_even].
  assert (∀ f : athread → list Z,
             (∀ th, a_pc th = ADone →
                    f th = evens (slice a (a_start th) (a_end th))) →
             concat (f <$> a_threads σ) = evens a) as Hfm.
  { intros f Hf. rewrite <-(evens_slices_concat a W Hsz). fold n. f_equal.
    apply list_eq. intros t. rewrite !list_lookup_fmap.
    destruct (a_threads σ !! t) as [th|] eqn:Hth.
    - pose proof (lookup_lt_Some _ _ _ Hth).
      rewrite lookup_seqZ_lt by lia. cbn [fmap option_fmap option_map].
      rewrite Hf by by eapply Forall_lookup_1 in Hj.
      destruct (Hshape _ _ Hth) as [-> ->]. by rewrite Z.add_0_l.
    - apply lookup_ge_None in Hth. rewrite lookup_seqZ_ge by lia. done. }
  split.
  - rewrite Hsum. do 2 f_equal. apply Hfm. intros th Hd.
    unfold a_summed, a_behind, a_pos. rewrite Hd. by rewrite app_nil_r.
  - apply maxZ_unique; [done..|].
    intros y Hy. rewrite <-(Hfm (a_behind a)) in Hy.
    + apply elem_of_concat_fmap in Hy as (th & [t Hth]%list_elem_of_lookup & Hy).
      by eapply Hbeh.
    + intros th Hd. unfold a_behind, a_pos. by rewrite Hd.
Qed.

Lemma atomic_correct σ :
  rtc astep (ainit W a) σ → ajoined σ →
  atomic_sum σ = sum_even (sequential a) ∧
  atomic_max σ = max_even (sequential a).
Proof using Hsz. intros Hr. apply ainv_joined. by apply areach_inv. Qed.

Lemma atomic_no_fault σ t th :
  rtc astep (ainit W a) σ → a_threads σ !! t = Some th → a_pc th ≠ AFault.
Proof using Hsz.
  intros Hr Hth Hpc. apply (areach_inv W a Hsz) in Hr.
  pose proof (ainv_ok _ _ _ Hr _ _ Hth) as Hk.
  unfold athread_ok in Hk. by rewrite Hpc in Hk.
Qed.
End AtomicResult.

(** ** Running a schedule of the lock-free version *)

Lemma arun_app s1 s2 σ : arun (s1 ++ s2) σ = arun s2 (arun s1 σ).
Proof. apply foldl_app. Qed.

Lemma arun_reach sched σ : rtc astep σ (arun sched σ).
Proof.
  revert σ. induction sched as [|[t c] sched IH]; intros σ; [done|].
  change (arun ((t, c) :: sched) σ)
    with (arun sched (default σ (astep_at t c σ))).
  destruct (astep_at t c σ) as [σ1|] eqn:E; [|apply IH].
  eapply rtc_l; [by exists t, c|apply IH].
Qed.

Lemma arun_cons t c sched σ σ1 :
  astep_at t c σ = Some σ1 → arun ((t, c) :: sched) σ = arun sched σ1.
Proof. intros H. unfold arun. cbn [foldl fst snd]. by rewrite H. Qed.

Lemma astep_at_thread t c a sm mx old pool th :
  pool !! t = Some th →
  astep_at t c (AState a sm mx old pool)
  = match a_exec c th (AState a sm mx old pool) with
    | Some (sm', mx', old', pc) =>
        Some (AState a sm' mx' old'
                (<[t := AThread (a_start th) (a_end th) pc]> pool))
    | None => None
    end.
Proof. intros Hth. unfold astep_at. cbn [a_threads a_arr]. by rewrite Hth. Qed.

Local Ltac astep_tac Hth rew :=
  erewrite arun_cons;
  [|erewrite astep_at_thread
      by first [exact Hth
               | apply list_lookup_insert_eq; apply (lookup_lt_Some _ _ _ Hth)];
    cbn [a_exec a_pc a_start a_end a_arr atomic_sum atomic_max atomic_max_old
         stale spurious prompt lookup list_lookup default from_option
         id negb andb];
    rew; reflexivity];
  rewrite ?list_insert_insert_eq.

(** One element of its range, by a thread that runs alone. *)
Lemma a_element σ t lo hi i x :
  a_threads σ !! t = Some (AThread lo hi (ALoop i)) →
  i < hi → index (a_arr σ) i = Some x →
  ∃ sched, let σ' := arun sched σ in
    a_arr σ' = a_arr σ ∧
    a_threads σ' = <[t := AThread lo hi (ALoop (int_add i 1))]> (a_threads σ).
Proof.
  destruct σ as [a0 sm mx old pool].
  cbn [a_arr a_threads]. intros Hth Hi%Z.ltb_lt Hx.
  destruct (is_even x) eqn:Hev; [destruct (x >? mx) eqn:Hgt|].
  - exists (replicate 4 (t, prompt)). cbn [replicate].
    do 4 astep_tac Hth ltac:(rewrite ?Hi, ?Hx, ?Hev, ?Hgt, ?Z.eqb_refl).
    done.
  - exists (replicate 4 (t, prompt)). cbn [replicate].
    do 4 astep_tac Hth ltac:(rewrite ?Hi, ?Hx, ?Hev, ?Hgt, ?Z.eqb_refl).
    done.
  - exists [(t, prompt)].
    astep_tac Hth ltac:(rewrite ?Hi, ?Hx, ?Hev). done.
Qed.

(** A thread that runs alone finishes its range. *)
Lemma asolo (k : nat) σ t lo hi i :
  a_threads σ !! t = Some (AThread lo hi (ALoop i)) →
  0 ≤ i → hi ≤ Z.of_nat (length (a_arr σ)) → hi ≤ INT_MAX →
  (Z.to_nat (hi - i) ≤ k)%nat →
  ∃ sched, let σ' := arun sched σ in
    a_arr σ' = a_arr σ ∧
    a_threads σ' = <[t := AThread lo hi ADone]> (a_threads σ).
Proof.
  revert σ i. induction k as [|k IH]; intros σ i Hth Hi0 Hhi Hmax Hk.
  all: destruct (Z.ltb_spec i hi) as [Hi|Hi]; [|try clear IH].
  1: lia.
  2: { destruct (index_in_range (a_arr σ) i) as [x Hx]; [lia|].
       destruct (a_element σ t lo hi i x Hth Hi Hx) as (s1 & Harr1 & Hth1).
       cbn zeta in *. rewrite int_succ in Hth1 by lia.
       destruct (IH (arun s1 σ) (i + 1)) as (s2 & Harr2 & Hth2);
         [|lia|by rewrite Harr1|done|lia|].
       { rewrite Hth1. apply list_lookup_insert_eq. by eapply lookup_lt_Some. }
       exists (s1 ++ s2). cbn zeta in *. rewrite arun_app.
       split; [congruence|].
       by rewrite Hth2, Hth1, list_insert_insert_eq. }
  all: exists [(t, prompt)]; destruct σ as [a0 sm mx old pool];
    cbn [a_arr a_threads] in *;
    apply Z.ltb_ge in Hi; astep_tac Hth ltac:(rewrite ?Hi); done.
Qed.

(** A thread that runs alone leaves the loop of lines 107-108 after at
    most one failed exchange. *)
Lemma a_cas_alone σ t lo hi i x cur :
  a_threads σ !! t = Some (AThread lo hi (ACas i x cur)) →
  ∃ sched, let σ' := arun sched σ in
    a_arr σ' = a_arr σ ∧
    a_threads σ' = <[t := AThread lo hi (ALoop (int_add i 1))]> (a_threads σ).
Proof.
  destruct σ as [a0 sm mx old pool]. cbn [a_arr a_threads]. intros Hth.
  destruct (x >? cur) eqn:Hgt; [destruct (mx =? cur) eqn:Heq|].
  - exists [(t, prompt)].
    astep_tac Hth ltac:(rewrite ?Hgt, ?Heq). done.
  - destruct (x >? mx) eqn:Hgt2.
    + exists (replicate 2 (t, prompt)). cbn [replicate].
      astep_tac Hth ltac:(rewrite ?Hgt, ?Heq).
      astep_tac Hth ltac:(rewrite ?Hgt2, ?Z.eqb_refl). done.
    + exists (replicate 2 (t, prompt)). cbn [replicate].
      astep_tac Hth ltac:(rewrite ?Hgt, ?Heq).
      astep_tac Hth ltac:(rewrite ?Hgt2). done.
  - exists [(t, prompt)]. astep_tac Hth ltac:(rewrite ?Hgt). done.
Qed.

Lemma a_load_alone σ t lo hi i x :
  a_threads σ !! t = Some (AThread lo hi (ALoad i x)) →
  ∃ sched, let σ' := arun sched σ in
    a_arr σ' = a_arr σ ∧
    a_threads σ' = <[t := AThread lo hi (ALoop (int_add i 1))]> (a_threads σ).
Proof.
  intros Hth. pose proof (lookup_lt_Some _ _ _ Hth) as Hlt.
  destruct σ as [a0 sm mx old pool]. cbn [a_arr a_threads] in *.
  destruct (a_cas_alone
              (AState a0 sm mx old (<[t := AThread lo hi (ACas i x mx)]> pool))
              t lo hi i x mx) as (s2 & Harr & Hths).
  { by apply list_lookup_insert_eq. }
  cbn zeta in *. cbn [a_arr a_threads] in *.
  exists ((t, prompt) :: s2). astep_tac Hth idtac.
  split; [done|]. by rewrite Hths, list_insert_insert_eq.
Qed.

Lemma a_add_alone σ t lo hi i x :
  a_threads σ !! t = Some (AThread lo hi (AAdd i x)) →
  ∃ sched, let σ' := arun sched σ in
    a_arr σ' = a_arr σ ∧
    a_threads σ' = <[t := AThread lo hi (ALoop (int_add i 1))]> (a_threads σ).
Proof.
  intros Hth. pose proof (lookup_lt_Some _ _ _ Hth) as Hlt.
  destruct σ as [a0 sm mx old pool]. cbn [a_arr a_threads] in *.
  destruct (a_load_alone
              (AState a0 (ll_add sm x) mx old
                      (<[t := AThread lo hi (ALoad i x)]> pool))
              t lo hi i x) as (s2 & Harr & Hths).
  { by apply list_lookup_insert_eq. }
  cbn zeta in *. cbn [a_arr a_threads] in *.
  exists ((t, prompt) :: s2). astep_tac Hth idtac.
  split; [done|]. by rewrite Hths, list_insert_insert_eq.
Qed.

Section AtomicCompletion.
Variable W : Z.
Variable a : list Z.
Let n := Z.of_nat (length a).
Hypothesis Hsz : sizes_ok n W.

(** From a state of a run, any one thread can be run alone until it
    returns. *)
Lemma a_finish σ t th :
  ainv W a σ → a_threads σ !! t = Some th →
  ∃ sched,
    a_threads (arun sched σ)
    = <[t := AThread (a_start th) (a_end th) ADone]> (a_threads σ).
Proof using Hsz.
  intros Hinv Hth.
  pose proof (ainv_ok _ _ _ Hinv _ _ Hth) as Hok.
  pose proof (ainv_shape _ _ _ Hinv _ _ Hth) as [Hst Hen].
  pose proof (lookup_lt_Some _ _ _ Hth) as Hlt.
  pose proof (ainv_len _ _ _ Hinv) as Hlen.
  pose proof (ainv_arr _ _ _ Hinv) as Harr.
  pose proof (chunk_range_bounds n W Hsz (Z.of_nat t) ltac:(lia)) as Hb.
  fold n in Hst, Hen. rewrite <-Hst, <-Hen in Hb.
  assert (n ≤ INT_MAX) as Hn by apply Hsz. unfold n in Hb, Hn.
  destruct th as [lo hi pc]. unfold athread_ok in Hok.
  cbn [a_pc a_start a_end] in *.
  assert (∀ σ1 i, a_arr σ1 = a_arr σ →
            a_threads σ1 = <[t := AThread lo hi (ALoop (int_add i 1))]>
                             (a_threads σ) →
            lo ≤ i < hi →
            ∃ s2, a_threads (arun s2 σ1)
                  = <[t := AThread lo hi ADone]> (a_threads σ)) as Hrest.
  { intros σ1 i Harr1 Hths1 Hi. rewrite int_succ in Hths1 by lia.
    destruct (asolo (Z.to_nat (hi - (i + 1))) σ1 t lo hi (i + 1))
      as (s2 & _ & Hths2); [|lia|rewrite Harr1, Harr; lia|lia|lia|].
    { rewrite Hths1. by apply list_lookup_insert_eq. }
    exists s2. cbn zeta in Hths2.
    by rewrite Hths2, Hths1, list_insert_insert_eq. }
  destruct pc as [i|i x|i x|i x cur| |].
  - destruct (asolo (Z.to_nat (hi - i)) σ t lo hi i Hth)
      as (s & _ & Hths); [lia|rewrite Harr; lia|lia|lia|].
    by exists s.
  - destruct (a_add_alone σ t lo hi i x Hth) as (s1 & Harr1 & Hths1).
    destruct (Hrest _ i Harr1 Hths1) as [s2 Hths2]; [lia|].
    exists (s1 ++ s2). by rewrite arun_app.
  - destruct (a_load_alone σ t lo hi i x Hth) as (s1 & Harr1 & Hths1).
    destruct (Hrest _ i Harr1 Hths1) as [s2 Hths2]; [lia|].
    exists (s1 ++ s2). by rewrite arun_app.
  - destruct (a_cas_alone σ t lo hi i x cur Hth) as (s1 & Harr1 & Hths1).
    destruct (Hrest _ i Harr1 Hths1) as [s2 Hths2]; [lia|].
    exists (s1 ++ s2). by rewrite arun_app.
  - exists []. symmetry. by apply list_insert_id.
  - done.
Qed.

Lemma a_finish_upto (k : nat) σ :
  rtc astep (ainit W a) σ → (k ≤ Z.to_nat W)%nat →
  ∃ sched, ∀ t th, a_threads (arun sched σ) !! t = Some th →
                   (t < k)%nat → a_pc th = ADone.
Proof using Hsz.
  intros Hr. induction k as [|k IH]; intros Hk.
  - exists []. intros; lia.
  - destruct IH as [s1 Hdone]; [lia|].
    assert (rtc astep (ainit W a) (arun s1 σ)) as Hr1
        by (etrans; [exact Hr|apply arun_reach]).
    pose proof (areach_inv W a Hsz _ Hr1) as Hinv1.
    destruct (lookup_lt_is_Some_2 (a_threads (arun s1 σ)) k) as [th Hth].
    { rewrite (ainv_len _ _ _ Hinv1). lia. }
    destruct (a_finish _ _ _ Hinv1 Hth) as [s2 Hths].
    exists (s1 ++ s2). rewrite arun_app, Hths. intros t th'.
    destruct (decide (t = k)) as [->|Hne].
    + rewrite list_lookup_insert_eq by by eapply lookup_lt_Some.
      by intros [= <-].
    + rewrite list_lookup_insert_ne by done. intros Hth' ?.
      apply (Hdone _ _ Hth'). lia.
Qed.

(** Every run of the lock-free version can be continued until all threads
    have returned. *)
Lemma atomic_completes σ :
  rtc astep (ainit W a) σ → ∃ σ', rtc astep σ σ' ∧ ajoined σ'.
Proof using Hsz.
  intros Hr. destruct (a_finish_upto (Z.to_nat W) σ Hr (le_n _)) as [s Hs].
  exists (arun s σ). split; [apply arun_reach|].
  apply Forall_lookup. intros t th Hth. apply (Hs _ _ Hth).
  assert (rtc astep (ainit W a) (arun s σ)) as Hr1
      by (etrans; [exact Hr|apply arun_reach]).
  apply lookup_lt_Some in Hth.
  rewrite (ainv_len _ _ _ (areach_inv W a Hsz _ Hr1)) in Hth. done.
Qed.

(** Some schedule lets every thread return. *)
Lemma atomic_terminates : ∃ sched, ajoined (arun sched (ainit W a)).
Proof using Hsz.
  destruct (a_finish_upto (Z.to_nat W) (ainit W a) (rtc_refl _ _) (le_n _))
    as [s Hs].
  exists s. apply Forall_lookup. intros t th Hth. apply (Hs _ _ Hth).
  apply lookup_lt_Some in Hth.
  assert (rtc astep (ainit W a) (arun s (ainit W a))) as Hr by apply arun_reach.
  rewrite (ainv_len _ _ _ (areach_inv W a Hsz _ Hr)) in Hth. done.
Qed.

Lemma atomic_returns : ∃ σ, rtc astep (ainit W a) σ ∧ ajoined σ.
Proof using Hsz.
  destruct atomic_terminates as [sched Hj]. eexists. split; [|exact Hj].
  apply arun_reach.
Qed.
End AtomicCompletion.

(** ** The array is only read *)

Lemma seq_body_arr l s : arr (foldl seq_body s l) = arr s.
Proof.
  revert s. induction l as [|x l IH]; intros s; [done|].
  cbn [foldl]. rewrite IH. unfold seq_body.
  destruct (is_even x); [|done]. cbn [arr sum_even max_even].
  by destruct (x >? max_even s).
Qed.

Lemma seq_loop_arr s : arr (seq_loop s) = arr s.
Proof. apply seq_body_arr. Qed.

Lemma mstep_arr σ σ' : mstep σ σ' → arr (m_store σ') = arr (m_store σ).
Proof.
  intros [t Ht]. unfold mstep_at in Ht.
  destruct (m_threads σ !! t) as [th|]; [|done].
  destruct (m_exec t th (m_store σ) (mtx σ)) as [[[s lk] pc]|] eqn:Hex;
    [|done].
  injection Ht as <-. cbn [m_store]. unfold m_exec in Hex.
  destruct (m_pc th);
    repeat match type of Hex with
           | context [if ?b then _ else _] => destruct b
           | context [match ?o with Some _ => _ | None => _ end] => destruct o
           end;
    by (discriminate || injection Hex as <- <- <-).
Qed.

Lemma mreach_arr σ σ' : rtc mstep σ σ' → arr (m_store σ') = arr (m_store σ).
Proof.
  induction 1 as [|σ1 σ2 σ3 H12 _ IH]; [done|].
  by rewrite IH, (mstep_arr _ _ H12).
Qed.

Lemma astep_arr σ σ' : astep σ σ' → a_arr σ' = a_arr σ.
Proof.
  intros (t & c & Ht). unfold astep_at in Ht.
  destruct (a_threads σ !! t) as [th|]; [|done].
  destruct (a_exec c th σ) as [[[[sm mx] old] pc]|]; [|done].
  by injection Ht as <-.
Qed.

Lemma areach_arr σ σ' : rtc astep σ σ' → a_arr σ' = a_arr σ.
Proof.
  induction 1 as [|σ1 σ2 σ3 H12 _ IH]; [done|].
  by rewrite IH, (astep_arr _ _ H12).
Qed.

(** ** [main] as a whole *)

Lemma sequential_arr a : arr (sequential a) = a.
Proof. unfold sequential. by rewrite seq_loop_arr. Qed.

Lemma final_pair_sequential W a mx sm :
  sizes_ok (Z.of_nat (length a)) W → final_pair W a mx sm →
  mx = max_even (sequential a) ∧ sm = sum_even (sequential a).
Proof.
  intros Hsz [|σ Hr Hj|σ Hr Hj].
  - done.
  - by rewrite (mutex_correct W a Hsz σ Hr Hj).
  - by destruct (atomic_correct W a Hsz σ Hr Hj) as [-> ->].
Qed.

(** Whatever the schedule, [main] prints the same report. *)
Lemma main_run_report W a r :
  sizes_ok (Z.of_nat (length a)) W → main_run W a r → r = expected_report a.
Proof.
  intros Hsz [s1 σm σa -> Hm Hjm Ha Hja].
  rewrite sequential_arr in Hm.
  pose proof (mutex_correct W a Hsz σm Hm Hjm) as Hms.
  rewrite Hms in Ha |- *. rewrite sequential_arr in Ha.
  destruct (atomic_correct W a Hsz σa Ha Hja) as [Hs Hx].
  rewrite (areach_arr _ _ Ha), Hs, Hx. done.
Qed.

(** Some schedule lets [main] run to its end. *)
Lemma main_run_exists W a :
  sizes_ok (Z.of_nat (length a)) W → ∃ r, main_run W a r.
Proof.
  intros Hsz.
  destruct (mutex_returns W a Hsz) as (σm & Hm & Hjm).
  pose proof (mreach_arr _ _ Hm) as Harr. cbn in Harr.
  destruct (atomic_returns W a Hsz) as (σa & Ha & Hja).
  eexists. eapply (MainRun W a (sequential a) σm σa); [done| |done| |done].
  - by rewrite sequential_arr.
  - by rewrite Harr.
Qed.

(** ** Ranges of the accumulators *)

Lemma evens_is_int a : Forall is_int a → Forall is_int (evens a).
Proof.
  intros Hint. apply Forall_forall. intros x [_ Hx]%elem_of_evens.
  by eapply Forall_forall in Hint.
Qed.

Lemma evens_sum_bounds a :
  array_ok a →
  - 4611686018427387904 ≤ sumZ (evens a) ≤ 4611686018427387904.
Proof.
  intros [Hint Hlen].
  pose proof (sumZ_bounds _ (evens_is_int a Hint)) as Hb.
  pose proof (length_filter (λ x, is_even x) a) as Hf. fold (evens a) in Hf.
  unfold INT_MIN, INT_MAX in *. change (2 ^ 31) with 2147483648 in *. nia.
Qed.

Lemma combine_exact_sequential a :
  array_ok a →
  let s := sequential a in
  is_int (max_even s) ∧ is_llong (2 * max_even s) ∧
  sum_even s = sumZ (evens a) ∧
  is_llong (2 * max_even s - sum_even s) ∧
  combine (max_even s) (sum_even s) = 2 * max_even s - sum_even s.
Proof.
  intros Hok. cbn zeta. rewrite sequential_eq. cbn [max_even sum_even].
  pose proof (evens_sum_bounds a Hok) as Hs.
  pose proof (maxZ_is_int _ (evens_is_int a (proj1 Hok))) as Hm.
  rewrite evens_sum_fits by done.
  assert (is_llong (2 * maxZ (evens a))) as H2.
  { apply (proj2 (llong_bounds _)). apply (proj1 (int_bounds _)) in Hm. lia. }
  assert (is_llong (2 * maxZ (evens a) - sumZ (evens a))) as H3.
  { apply (proj2 (llong_bounds _)). apply (proj1 (int_bounds _)) in Hm. lia. }
  split; [done|]. split; [done|]. split; [done|]. split; [done|].
  unfold combine, ll_sub, ll_mul. by rewrite (wrap_64_id _ H2), wrap_64_id.
Qed.

Lemma evens_none a : Forall (λ x, is_even x = false) a → evens a = [].
Proof.
  induction 1 as [|x l Hx _ IH]; [done|].
  unfold evens. rewrite filter_cons.
  rewrite decide_False by (by intros ?%Is_true_true; congruence). done.
Qed.

(** * The specification's claims *)

(** ** Concrete runs *)

Example chunks_10_3 : chunks 10 3 = [(0, 3); (3, 6); (6, 10)].
Proof. reflexivity. Qed.

(** The program's own sizes: 31 ranges of 312500 elements, the last one of
    312500 as well since 32 divides 10000000. *)
Example chunks_program :
  chunk 10000000 32 = 312500 ∧
  chunks 10000000 32 !! 0%nat = Some (0, 312500) ∧
  chunks 10000000 32 !! 31%nat = Some (9687500, 10000000).
Proof. vm_compute. done. Qed.

Example sequential_mixed :
  sequential [2; 3; 4; 5; 6] = Store [2; 3; 4; 5; 6] 12 6 ∧
  result_of (sequential [2; 3; 4; 5; 6]) = 0.
Proof. vm_compute. done. Qed.

Example sequential_odd :
  sequential [1; 3; 5; 7] = Store [1; 3; 5; 7] 0 (-1) ∧
  result_of (sequential [1; 3; 5; 7]) = -2.
Proof. vm_compute. done. Qed.

(** [%] truncates: [-3 % 2] is [-1], so [-3] is odd and [-4] even. *)
Example is_even_negative : is_even (-3) = false ∧ is_even (-4) = true.
Proof. done. Qed.

(** [main] with 32 threads on [[2; 3; 4; 5; 6]]: the threads 0..30 have an
    empty range, thread 31 has the whole array.  The schedule lets thread
    31 start, the others return, and thread 31 finish. *)
Example mutex_run_mixed :
  let σ := mrun (replicate 3 31%nat ++ seq 0 31 ++ replicate 18 31%nat)
                (minit 32 [2; 3; 4; 5; 6]) in
  m_store σ = Store [2; 3; 4; 5; 6] 12 6 ∧ mtx σ = None ∧
  m_pc <$> m_threads σ = replicate 32 MDone.
Proof. vm_compute. done. Qed.

(** The same array with two threads, thread 0 on [[2; 3]] and thread 1 on
    [[4; 5; 6]].  Thread 1 installs [4]; thread 0 then loads the stale
    [-1], its exchange fails, and the retry finds [2] below the maximum.
    The first exchange of thread 1 for [6] fails spuriously and is
    repeated. *)
Example atomic_run_mixed :
  let σ := arun (replicate 4 (1, prompt)
                 ++ [(0, prompt); (0, prompt); (0, Choice 1 false)]
                 ++ replicate 4 (0, prompt)
                 ++ replicate 4 (1, prompt)
                 ++ [(1, Choice 0 true); (1, prompt); (1, prompt)])%nat
                (ainit 2 [2; 3; 4; 5; 6]) in
  atomic_sum σ = 12 ∧ atomic_max σ = 6 ∧ atomic_max_old σ = [4; -1] ∧
  a_pc <$> a_threads σ = [ADone; ADone].
Proof. vm_compute. done. Qed.

(** ** C1: the three versions agree *)

(** C1.  For every array and every number of threads the program can have,
    [main] runs to its end on some schedule, and every run of a parallel
    version that has begun can be continued to its join.  On every
    schedule the mutex version and the lock-free version end with the pair
    [(max, sum)] of the sequential version; the three printed results
    [2 * max - sum] and the three printed maxima are equal. *)
Theorem strategies_agree (W : Z) (a : list Z) :
  sizes_ok (Z.of_nat (length a)) W →
  (∃ r, main_run W a r) ∧
  (∀ σ, rtc mstep (minit W a) σ → ∃ σ', rtc mstep σ σ' ∧ mjoined σ') ∧
  (∀ σ, rtc astep (ainit W a) σ → ∃ σ', rtc astep σ σ' ∧ ajoined σ') ∧
  (∀ mx sm, final_pair W a mx sm →
     mx = max_even (sequential a) ∧ sm = sum_even (sequential a)) ∧
  (∀ r, main_run W a r →
     result_seq r = result_mutex r ∧ result_mutex r = result_atomic r ∧
     max_seq r = max_mutex r ∧ max_mutex r = max_atomic r).
Proof.
  intros Hsz. split; [by apply main_run_exists|].
  split; [by apply mutex_completes|]. split; [by apply atomic_completes|].
  split.
  - intros mx sm. by apply final_pair_sequential.
  - intros r ->%main_run_report; done.
Qed.

Lemma strategies_agree_witness :
  sizes_ok (Z.of_nat (length [2; 3; 4; 5; 6])) 32 ∧
  (∃ r, main_run 32 [2; 3; 4; 5; 6] r) ∧
  (∀ mx sm, final_pair 32 [2; 3; 4; 5; 6] mx sm → mx = 6 ∧ sm = 12) ∧
  (∀ r, main_run 32 [2; 3; 4; 5; 6] r →
     result_seq r = result_mutex r ∧ result_mutex r = result_atomic r ∧
     max_seq r = max_mutex r ∧ max_mutex r = max_atomic r).
Proof.
  assert (sizes_ok (Z.of_nat (length [2; 3; 4; 5; 6])) 32) as Hsz
      by (unfold sizes_ok, INT_MAX; simpl; lia).
  split; [exact Hsz|].
  destruct (strategies_agree 32 [2; 3; 4; 5; 6] Hsz)
    as (Hex & _ & _ & Hpair & Hrep).
  split; [exact Hex|]. split; [exact Hpair|exact Hrep].
Defined.

(** ** C2: the chunks partition the index range *)

(** C2.  With [chunk = n / num_threads], thread [t < W - 1] gets
    [[t * chunk, (t + 1) * chunk)] and thread [W - 1] gets
    [[(W - 1) * chunk, n)]; an index lies in [[0, n)] exactly when some
    thread's range contains it, and no index lies in two ranges. *)
Theorem partition_exact (n W : Z) :
  sizes_ok n W →
  chunk n W = n `div` W ∧
  (∀ t, 0 ≤ t < W - 1 →
     start_idx n W t = t * (n `div` W) ∧
     end_idx n W t = (t + 1) * (n `div` W)) ∧
  (start_idx n W (W - 1) = (W - 1) * (n `div` W) ∧ end_idx n W (W - 1) = n) ∧
  (∀ i, 0 ≤ i < n ↔ ∃ t, 0 ≤ t < W ∧ in_chunk n W t i) ∧
  (∀ t1 t2 i, 0 ≤ t1 < W → 0 ≤ t2 < W →
     in_chunk n W t1 i → in_chunk n W t2 i → t1 = t2).
Proof.
  intros Hsz. pose proof (chunk_eq n W Hsz) as Hc.
  assert (1 ≤ W) by apply Hsz.
  split; [done|]. split; [|split; [|split]].
  - intros t Ht. rewrite start_idx_eq, end_idx_eq, Hc by (done || lia).
    destruct (t =? W - 1) eqn:E; [apply Z.eqb_eq in E; lia|done].
  - rewrite start_idx_eq, Hc by (done || lia). split; [done|].
    by apply chunk_last.
  - intros i. split; [by apply chunk_owner|].
    intros (t & Ht & Hi). unfold in_chunk in Hi.
    pose proof (chunk_range_bounds n W Hsz t Ht). lia.
  - intros t1 t2 i. by apply chunk_disjoint.
Qed.

Lemma partition_exact_witness :
  sizes_ok 10000000 32 ∧
  chunk 10000000 32 = 312500 ∧
  (∀ i, 0 ≤ i < 10000000 ↔ ∃ t, 0 ≤ t < 32 ∧ in_chunk 10000000 32 t i).
Proof.
  assert (sizes_ok 10000000 32) as Hsz
      by (unfold sizes_ok, INT_MAX; simpl; lia).
  split; [exact Hsz|].
  destruct (partition_exact 10000000 32 Hsz) as (Hc & _ & _ & Hcov & _).
  split; [exact Hc|exact Hcov].
Defined.

(** ** C3: no even element *)

(** C3.  On an array without even elements every version ends with
    [sum = 0] and [max = -1], and prints the result [-2] and the maximum
    [-1]; [main] does run to its end. *)
Theorem no_even_sentinel (W : Z) (a : list Z) :
  sizes_ok (Z.of_nat (length a)) W →
  Forall (λ x, is_even x = false) a →
  (∀ mx sm, final_pair W a mx sm →
     sm = 0 ∧ mx = -1 ∧ combine mx sm = -2) ∧
  (∃ r, main_run W a r) ∧
  (∀ r, main_run W a r → r = Report (-2) (-1) (-2) (-1) (-2) (-1) a).
Proof.
  intros Hsz Hodd.
  assert (sequential a = Store a 0 (-1)) as Hseq
      by (by rewrite sequential_eq, (evens_none a Hodd)).
  split; [|split].
  - intros mx sm [-> ->]%final_pair_sequential; [|done].
    by rewrite Hseq.
  - by apply main_run_exists.
  - intros r ->%main_run_report; [|done].
    unfold expected_report. by rewrite Hseq.
Qed.

Lemma no_even_sentinel_witness :
  sizes_ok (Z.of_nat (length [1; 3; 5; 7])) 32 ∧
  Forall (λ x, is_even x = false) [1; 3; 5; 7] ∧
  ∀ r, main_run 32 [1; 3; 5; 7] r →
       r = Report (-2) (-1) (-2) (-1) (-2) (-1) [1; 3; 5; 7].
Proof.
  assert (sizes_ok (Z.of_nat (length [1; 3; 5; 7])) 32) as Hsz
      by (unfold sizes_ok, INT_MAX; simpl; lia).
  assert (Forall (λ x, is_even x = false) [1; 3; 5; 7]) as Hodd
      by (repeat constructor).
  split; [exact Hsz|]. split; [exact Hodd|].
  exact (proj2 (proj2 (no_even_sentinel 32 [1; 3; 5; 7] Hsz Hodd))).
Defined.

(** ** C4: the sequential reducer *)

(** C4, as the specification states it, fails on an array whose even
    elements are all negative: on [[-2]] the loop leaves [max_even = -1],
    which is neither the greatest even element nor the sign of an array
    without even elements. *)
Lemma sequential_negative_evens : ¬ sequential_claim [-2].
Proof.
  intros [_ [[Hnil _]|[Hin _]]].
  - discriminate Hnil.
  - vm_compute in Hin. apply list_elem_of_singleton in Hin. discriminate Hin.
Qed.

(** C4, amended.  After the loop [sum_even] is the exact sum of the even
    elements; and [max_even] is the greatest even element, or the sentinel
    [-1] when there is no even element, exactly when the array has no even
    element or some even element that is not negative (in all other
    arrays, those whose even elements are all negative, it stays [-1]). *)
Theorem sequential_reduces (a : list Z) :
  array_ok a →
  sum_even (sequential a) = sumZ (evens a) ∧
  (true_max_or_sentinel a (max_even (sequential a))
   ↔ evens a = [] ∨ ∃ y, y ∈ evens a ∧ 0 ≤ y) ∧
  ((∀ y, y ∈ evens a → y < 0) → max_even (sequential a) = -1).
Proof.
  intros Hok. rewrite sequential_eq. cbn [sum_even max_even].
  split; [by apply evens_sum_fits|].
  pose proof (maxZ_lower (evens a)) as Hlow.
  unfold true_max_or_sentinel, greatest. split; [split|].
  - intros [[Hnil _]|[Hin _]]; [by left|]. right.
    exists (maxZ (evens a)). split; [done|].
    apply elem_of_evens in Hin as [Hev _].
    destruct (decide (maxZ (evens a) = -1)) as [E|E]; [|lia].
    rewrite E in Hev. discriminate Hev.
  - intros [Hnil|(y & Hy & Hpos)].
    + left. by rewrite Hnil.
    + right. pose proof (maxZ_upper _ _ Hy) as Hup.
      split; [|apply maxZ_upper].
      destruct (maxZ_elem (evens a)) as [E|E]; [lia|done].
  - intros Hneg. destruct (maxZ_elem (evens a)) as [E|E]; [done|].
    apply Hneg in E. lia.
Qed.

Lemma sequential_reduces_witness :
  array_ok [-4; 2; 3] ∧
  sum_even (sequential [-4; 2; 3]) = -2 ∧
  max_even (sequential [-4; 2; 3]) = 2 ∧
  true_max_or_sentinel [-4; 2; 3] 2.
Proof.
  assert (array_ok [-4; 2; 3]) as Hok.
  { split; [|unfold INT_MAX; simpl; lia].
    repeat constructor; unfold INT_MIN, INT_MAX; simpl; lia. }
  destruct (sequential_reduces [-4; 2; 3] Hok) as (Hs & Hm & _).
  split; [exact Hok|]. split; [exact Hs|]. split; [reflexivity|].
  apply Hm. right. exists 2. split; [|lia]. vm_compute. repeat constructor.
Defined.

(** ** C5: the combiner *)

(** C5.  For every pair [(max, sum)] that a version hands to the combiner,
    [max] is an [int], [2 * max] and [2 * max - sum] fit [long long], and
    the 64-bit computation [combine max sum] is the exact [2 * max - sum]. *)
Theorem combine_exact (W : Z) (a : list Z) (mx sm : Z) :
  sizes_ok (Z.of_nat (length a)) W → array_ok a →
  final_pair W a mx sm →
  is_int mx ∧ is_llong (2 * mx) ∧ sm = sumZ (evens a) ∧
  is_llong (2 * mx - sm) ∧ combine mx sm = 2 * mx - sm.
Proof.
  intros Hsz Hok [-> ->]%final_pair_sequential; [|done].
  pose proof (combine_exact_sequential a Hok) as H. cbn zeta in H.
  destruct H as (? & ? & ? & ? & ?). done.
Qed.

Lemma combine_exact_witness :
  sizes_ok (Z.of_nat (length [2; 3; 4; 5; 6])) 32 ∧
  array_ok [2; 3; 4; 5; 6] ∧
  final_pair 32 [2; 3; 4; 5; 6] 6 12 ∧
  combine 6 12 = 2 * 6 - 12.
Proof.
  assert (sizes_ok (Z.of_nat (length [2; 3; 4; 5; 6])) 32) as Hsz
      by (unfold sizes_ok, INT_MAX; simpl; lia).
  assert (array_ok [2; 3; 4; 5; 6]) as Hok.
  { split; [|unfold INT_MAX; simpl; lia].
    repeat constructor; unfold INT_MIN, INT_MAX; simpl; lia. }
  assert (final_pair 32 [2; 3; 4; 5; 6] 6 12) as Hfin
      by exact (FinalSeq 32 [2; 3; 4; 5; 6]).
  split; [exact Hsz|]. split; [exact Hok|]. split; [exact Hfin|].
  exact (proj2 (proj2 (proj2 (proj2
           (combine_exact 32 [2; 3; 4; 5; 6] 6 12 Hsz Hok Hfin))))).
Defined.

(** ** C6: [atomic_max] only grows *)

Lemma astep_at_max t c σ σ' :
  astep_at t c σ = Some σ' →
  (atomic_max σ' = atomic_max σ ∧ atomic_max_old σ' = atomic_max_old σ)
  ∨ (∃ th i x, a_threads σ !! t = Some th ∧
       a_pc th = ACas i x (atomic_max σ) ∧ atomic_max σ < x ∧
       atomic_max σ' = x ∧
       atomic_max_old σ' = atomic_max σ :: atomic_max_old σ).
Proof.
  unfold astep_at. destruct (a_threads σ !! t) as [th|] eqn:Hth; [|done].
  destruct (a_exec c th σ) as [[[[sm mx] old] pc]|] eqn:Hex; [|done].
  intros [= <-]. cbn [atomic_max atomic_max_old].
  unfold a_exec in Hex. destruct (a_pc th) as [i|i x|i x|i x cur| |] eqn:Hpc.
  - left. destruct (i <? a_end th); [|by injection Hex as <- <- <- <-].
    destruct (index (a_arr σ) i); [|by injection Hex as <- <- <- <-].
    by destruct (is_even z); injection Hex as <- <- <- <-.
  - left. by injection Hex as <- <- <- <-.
  - left. by injection Hex as <- <- <- <-.
  - destruct (x >? cur) eqn:Hgt; [|left; by injection Hex as <- <- <- <-].
    destruct ((atomic_max σ =? cur) && negb (spurious c)) eqn:Hcas;
      [|left; by injection Hex as <- <- <- <-].
    right. injection Hex as <- <- <- <-.
    apply andb_true_iff in Hcas as [Heq%Z.eqb_eq _]. subst cur.
    apply Z.gtb_lt in Hgt. by exists th, i, x.
  - done.
  - done.
Qed.

Lemma astep_history σ σ' :
  astep σ σ' → max_history_increasing σ → max_history_increasing σ'.
Proof.
  intros (t & c & Hst) Hm. unfold max_history_increasing.
  destruct (astep_at_max _ _ _ _ Hst)
    as [[-> ->]|(th & i & x & _ & _ & Hlt & -> & ->)]; [done|].
  constructor; [done|]. constructor; [done|].
  apply Forall_forall. intros v Hv.
  pose proof (history_older _ _ Hm Hv). lia.
Qed.

Lemma areach_history σ σ' :
  rtc astep σ σ' → max_history_increasing σ → max_history_increasing σ'.
Proof. induction 1; eauto using astep_history. Qed.

Lemma areach_max_le σ σ' : rtc astep σ σ' → atomic_max σ ≤ atomic_max σ'.
Proof.
  induction 1 as [|σ1 σ2 σ3 (t & c & Hst) _ IH]; [done|].
  destruct (astep_at_max _ _ _ _ Hst)
    as [[E _]|(th & i & x & _ & _ & Hlt & E & _)]; lia.
Qed.

(** C6.  A step of the lock-free version either leaves [atomic_max] alone
    or is a successful exchange by a thread whose candidate [x] is
    strictly greater than the value it replaces; so along every run
    [atomic_max] never decreases, every value it ever had is below its
    current value, and a thread whose candidate is not greater than the
    value it observed leaves the loop without writing. *)
Theorem atomic_max_monotone :
  (∀ t c σ σ', astep_at t c σ = Some σ' →
     (atomic_max σ' = atomic_max σ ∧ atomic_max_old σ' = atomic_max_old σ)
     ∨ (∃ th i x, a_threads σ !! t = Some th ∧
          a_pc th = ACas i x (atomic_max σ) ∧ atomic_max σ < x ∧
          atomic_max σ' = x ∧
          atomic_max_old σ' = atomic_max σ :: atomic_max_old σ)) ∧
  (∀ σ σ', rtc astep σ σ' → atomic_max σ ≤ atomic_max σ') ∧
  (∀ W a σ, rtc astep (ainit W a) σ →
     max_history_increasing σ ∧
     ∀ v, v ∈ atomic_max_old σ → v < atomic_max σ) ∧
  (∀ t c σ σ' th i x current_max,
     a_threads σ !! t = Some th → a_pc th = ACas i x current_max →
     x ≤ current_max → astep_at t c σ = Some σ' →
     atomic_max σ' = atomic_max σ ∧
     atomic_max_old σ' = atomic_max_old σ ∧
     a_threads σ' !! t
     = Some (AThread (a_start th) (a_end th) (ALoop (int_add i 1)))).
Proof.
  split; [exact astep_at_max|]. split; [exact areach_max_le|]. split.
  - intros W a σ Hr.
    assert (max_history_increasing σ) as Hm.
    { apply (areach_history _ _ Hr). unfold max_history_increasing, ainit.
      cbn [atomic_max atomic_max_old]. by repeat constructor. }
    split; [done|]. intros v. by apply history_older.
  - intros t c σ σ' th i x cur Hth Hpc Hle. unfold astep_at. rewrite Hth.
    unfold a_exec. rewrite Hpc.
    assert ((x >? cur) = false) as ->
        by (destruct (Z.gtb_spec x cur); [lia|done]).
    intros [= <-]. cbn [atomic_max atomic_max_old a_threads].
    split; [done|]. split; [done|].
    apply list_lookup_insert_eq. by eapply lookup_lt_Some.
Qed.

(** ** C7 and C8: the two scenarios *)

(** C7.  On [[2; 3; 4; 5; 6]] the even elements are [2], [4], [6], their
    sum is 12 and their maximum 6; with any number of threads [main] runs
    to its end, and on every schedule all three versions print the result
    0 and the maximum 6. *)
Theorem scenario_mixed (W : Z) :
  1 ≤ W ≤ INT_MAX →
  evens [2; 3; 4; 5; 6] = [2; 4; 6] ∧
  sumZ (evens [2; 3; 4; 5; 6]) = 12 ∧ maxZ (evens [2; 3; 4; 5; 6]) = 6 ∧
  (∃ r, main_run W [2; 3; 4; 5; 6] r) ∧
  (∀ r, main_run W [2; 3; 4; 5; 6] r →
     r = Report 0 6 0 6 0 6 [2; 3; 4; 5; 6]).
Proof.
  intros HW.
  assert (sizes_ok (Z.of_nat (length [2; 3; 4; 5; 6])) W) as Hsz
      by (split; [unfold INT_MAX; simpl; lia|done]).
  split; [done|]. split; [done|]. split; [done|]. split.
  - by apply main_run_exists.
  - by intros r ->%main_run_report.
Qed.

Lemma scenario_mixed_witness :
  1 ≤ 32 ≤ INT_MAX ∧
  ∀ r, main_run 32 [2; 3; 4; 5; 6] r →
       r = Report 0 6 0 6 0 6 [2; 3; 4; 5; 6].
Proof.
  assert (1 ≤ 32 ≤ INT_MAX) as HW by (unfold INT_MAX; simpl; lia).
  split; [exact HW|].
  exact (proj2 (proj2 (proj2 (proj2 (scenario_mixed 32 HW))))).
Defined.

(** C8.  For the array [[8]] and 32 threads the ranges are 31 times the
    empty [[0, 0)] and once [[0, 1)]; [main] runs to its end, and on every
    schedule all three versions print the result 8 (and the maximum 8). *)
Theorem scenario_single :
  chunks 1 32 = replicate 31 (0, 0) ++ [(0, 1)] ∧
  (∃ r, main_run 32 [8] r) ∧
  (∀ r, main_run 32 [8] r → r = Report 8 8 8 8 8 8 [8]).
Proof.
  assert (sizes_ok (Z.of_nat (length [8])) 32) as Hsz
      by (unfold sizes_ok, INT_MAX; simpl; lia).
  split; [done|]. split.
  - by apply main_run_exists.
  - by intros r ->%main_run_report.
Qed.

(** ** C9: the array is not modified *)

(** C9.  The sequential loop returns the array it was given; no state the
    mutex version or the lock-free version can reach holds a different
    array; and the array is the same when [main] returns. *)
Theorem input_unchanged (W : Z) (a : list Z) :
  arr (sequential a) = a ∧
  (∀ σ, rtc mstep (minit W a) σ → arr (m_store σ) = a) ∧
  (∀ σ, rtc astep (ainit W a) σ → a_arr σ = a) ∧
  (∀ r, main_run W a r → arr_final r = a).
Proof.
  split; [apply sequential_arr|]. split; [|split].
  - intros σ Hr. by rewrite (mreach_arr _ _ Hr).
  - intros σ Hr. by rewrite (areach_arr _ _ Hr).
  - intros r [s1 σm σa -> Hm Hjm Ha Hja]. cbn [arr_final].
    rewrite (areach_arr _ _ Ha). cbn [ainit a_arr].
    rewrite (mreach_arr _ _ Hm). cbn [minit m_store reset arr].
    apply sequential_arr.
Qed.

(** ** C10: every access is in bounds *)

(** C10.  Every range computed at lines 62-64 satisfies
    [0 ≤ start_idx ≤ end_idx ≤ n], also when [n < num_threads]; and no
    thread of either parallel version ever reads [arr[i]] outside of the
    array. *)
Theorem workers_in_bounds (W : Z) (a : list Z) :
  sizes_ok (Z.of_nat (length a)) W →
  (∀ t, 0 ≤ t < W →
     0 ≤ start_idx (Z.of_nat (length a)) W t
       ≤ end_idx (Z.of_nat (length a)) W t
     ∧ end_idx (Z.of_nat (length a)) W t ≤ Z.of_nat (length a)) ∧
  (∀ σ t th, rtc mstep (minit W a) σ → m_threads σ !! t = Some th →
     m_pc th ≠ MFault) ∧
  (∀ σ t th, rtc astep (ainit W a) σ → a_threads σ !! t = Some th →
     a_pc th ≠ AFault).
Proof.
  intros Hsz. split; [|split].
  - intros t. by apply chunk_range_bounds.
  - intros σ t th. by apply mutex_no_fault.
  - intros σ t th. by apply atomic_no_fault.
Qed.

Lemma workers_in_bounds_witness :
  sizes_ok (Z.of_nat (length [8])) 32 ∧
  ∀ t, 0 ≤ t < 32 → 0 ≤ start_idx 1 32 t ≤ end_idx 1 32 t ∧ end_idx 1 32 t ≤ 1.
Proof.
  assert (sizes_ok (Z.of_nat (length [8])) 32) as Hsz
      by (unfold sizes_ok, INT_MAX; simpl; lia).
  split; [exact Hsz|]. exact (proj1 (workers_in_bounds 32 [8] Hsz)).
Defined.

(** * Further properties of the code *)

(** ** Filling the array *)

Lemma lcg_draw_in_range : draw_in_range lcg_draw.
Proof.
  intros lo hi g Hle. unfold lcg_draw. cbn [fst].
  pose proof (Z.mod_pos_bound g (hi - lo + 1) ltac:(lia)). lia.
Qed.

Section GenerateArrayFacts.
Context {G : Type}.
Variable draw : Z → Z → G → Z * G.

Lemma generateArray_cons x arr lo hi g :
  generateArray draw (x :: arr) lo hi g
  = ((draw lo hi g).1
       :: (generateArray draw arr lo hi (draw lo hi g).2).1,
     (generateArray draw arr lo hi (draw lo hi g).2).2).
Proof.
  cbn [generateArray]. destruct (draw lo hi g) as [v g1]. cbn [fst snd].
  by destruct (generateArray draw arr lo hi g1).
Qed.

Lemma generateArray_length arr lo hi g :
  length (generateArray draw arr lo hi g).1 = length arr.
Proof.
  revert g. induction arr as [|x arr IH]; intros g; [done|].
  rewrite generateArray_cons. cbn [fst length]. by rewrite IH.
Qed.

Lemma generateArray_Forall arr lo hi g :
  draw_in_range draw → lo ≤ hi →
  Forall (λ x, lo ≤ x ≤ hi) (generateArray draw arr lo hi g).1.
Proof.
  intros Hd Hle. revert g. induction arr as [|x arr IH]; intros g.
  - constructor.
  - rewrite generateArray_cons. cbn [fst]. constructor; [by apply Hd|apply IH].
Qed.

Lemma generateArray_same_length arr arr' lo hi g :
  length arr = length arr' →
  generateArray draw arr lo hi g = generateArray draw arr' lo hi g.
Proof.
  revert arr' g. induction arr as [|x arr IH]; intros [|x' arr'] g Hlen;
    try done.
  rewrite !generateArray_cons. injection Hlen as Hlen.
  by rewrite (IH arr' _ Hlen).
Qed.

Lemma generateArray_app arr1 arr2 lo hi g :
  generateArray draw (arr1 ++ arr2) lo hi g
  = ((generateArray draw arr1 lo hi g).1
       ++ (generateArray draw arr2 lo hi
             (generateArray draw arr1 lo hi g).2).1,
     (generateArray draw arr2 lo hi (generateArray draw arr1 lo hi g).2).2).
Proof.
  revert g. induction arr1 as [|x arr1 IH]; intros g.
  - cbn [app generateArray fst snd]. by destruct (generateArray _ _ _ _ _).
  - rewrite <-app_comm_cons, !generateArray_cons, IH. done.
Qed.
End GenerateArrayFacts.

(** X1.  [generateArray] keeps the size of the vector and leaves every
    element within [[minVal, maxVal]], when the bounds are in order and the
    library's draw keeps its promise. *)
Theorem generateArray_fills {G : Type} (draw : Z → Z → G → Z * G)
    (arr : list Z) (minVal maxVal : Z) (gen : G) :
  draw_in_range draw → minVal ≤ maxVal →
  length (generateArray draw arr minVal maxVal gen).1 = length arr ∧
  Forall (λ x, minVal ≤ x ≤ maxVal)
         (generateArray draw arr minVal maxVal gen).1.
Proof.
  intros Hd Hle. split; [apply generateArray_length|].
  by apply generateArray_Forall.
Qed.

Lemma generateArray_fills_witness :
  draw_in_range lcg_draw ∧ 0 ≤ 10000 ∧
  length (generateArray lcg_draw [7; 7; 7] 0 10000 42).1 = 3%nat ∧
  Forall (λ x, 0 ≤ x ≤ 10000) (generateArray lcg_draw [7; 7; 7] 0 10000 42).1.
Proof.
  split; [exact lcg_draw_in_range|]. split; [lia|].
  exact (generateArray_fills lcg_draw [7; 7; 7] 0 10000 42
           lcg_draw_in_range ltac:(lia)).
Defined.

(** X2.  [generateArray] overwrites every element: the vector it leaves and
    the state of the generator depend on the size of the vector given, not
    on its contents. *)
Theorem generateArray_overwrites {G : Type} (draw : Z → Z → G → Z * G)
    (arr arr' : list Z) (minVal maxVal : Z) (gen : G) :
  length arr = length arr' →
  generateArray draw arr minVal maxVal gen
  = generateArray draw arr' minVal maxVal gen.
Proof. apply generateArray_same_length. Qed.

Lemma generateArray_overwrites_witness :
  length [1; 2; 3] = length [-5; 0; 9] ∧
  generateArray lcg_draw [1; 2; 3] 0 10000 42
  = generateArray lcg_draw [-5; 0; 9] 0 10000 42.
Proof.
  split; [reflexivity|].
  exact (generateArray_overwrites lcg_draw [1; 2; 3] [-5; 0; 9] 0 10000 42
           eq_refl).
Defined.

(** X3.  The generator is static: a second call goes on where the first
    one stopped, so filling [arr1] and then [arr2] draws the values that
    filling [arr1 ++ arr2] at once draws. *)
Theorem generateArray_continues {G : Type} (draw : Z → Z → G → Z * G)
    (arr1 arr2 : list Z) (minVal maxVal : Z) (gen : G) :
  let first := generateArray draw arr1 minVal maxVal gen in
  let second := generateArray draw arr2 minVal maxVal first.2 in
  generateArray draw (arr1 ++ arr2) minVal maxVal gen
  = (first.1 ++ second.1, second.2).
Proof. apply generateArray_app. Qed.

(** ** The sequential loop as a reduction *)

Lemma wrap_64_add a b : wrap 64 (wrap 64 a + wrap 64 b) = wrap 64 (a + b).
Proof.
  rewrite wrap_64_add_l, (Z.add_comm a), wrap_64_add_l. f_equal. lia.
Qed.

Lemma evens_perm a b : a ≡ₚ b → evens a ≡ₚ evens b.
Proof. intros H. unfold evens. by rewrite H. Qed.

Lemma nonneg_sum_max l :
  Forall (λ y, 0 ≤ y) l → 0 ≤ sumZ l ∧ (l ≠ [] → maxZ l ≤ sumZ l).
Proof.
  induction 1 as [|x l Hx _ [IH0 IHm]]; [done|].
  rewrite sumZ_cons, maxZ_cons. split; [lia|]. intros _.
  destruct l as [|y l]; [|specialize (IHm ltac:(done)); lia].
  change (maxZ []) with (-1). change (sumZ []) with 0. lia.
Qed.

Lemma nonneg_true_max a :
  Forall (λ y, 0 ≤ y) (evens a) → true_max_or_sentinel a (maxZ (evens a)).
Proof.
  intros Hpos. unfold true_max_or_sentinel, greatest.
  destruct (evens a) as [|y l] eqn:Hev; [by left|]. right.
  assert (0 ≤ y) as Hy by (by inversion Hpos).
  pose proof (maxZ_upper (y :: l) y ltac:(left)) as Hup.
  split; [|apply maxZ_upper].
  destruct (maxZ_elem (y :: l)) as [E|E]; [lia|done].
Qed.

(** X4.  The sequential loop does not depend on the order of the elements:
    two arrays with the same elements in any order give the same sum, the
    same maximum and the same result. *)
Theorem sequential_order_free (a b : list Z) :
  a ≡ₚ b →
  sum_even (sequential a) = sum_even (sequential b) ∧
  max_even (sequential a) = max_even (sequential b) ∧
  result_of (sequential a) = result_of (sequential b).
Proof.
  intros Hp%evens_perm. unfold result_of. rewrite !sequential_eq.
  cbn [sum_even max_even]. by rewrite Hp.
Qed.

Lemma sequential_order_free_witness :
  [2; 3; 4; 5; 6] ≡ₚ [6; 5; 4; 3; 2] ∧
  sum_even (sequential [2; 3; 4; 5; 6]) = sum_even (sequential [6; 5; 4; 3; 2]) ∧
  max_even (sequential [2; 3; 4; 5; 6]) = max_even (sequential [6; 5; 4; 3; 2]) ∧
  result_of (sequential [2; 3; 4; 5; 6]) = result_of (sequential [6; 5; 4; 3; 2]).
Proof.
  assert ([2; 3; 4; 5; 6] ≡ₚ [6; 5; 4; 3; 2]) as Hp
      by (change [6; 5; 4; 3; 2] with (reverse [2; 3; 4; 5; 6]);
          symmetry; apply reverse_Permutation).
  split; [exact Hp|].
  exact (sequential_order_free [2; 3; 4; 5; 6] [6; 5; 4; 3; 2] Hp).
Defined.

(** X5.  The loop over two arrays one after the other: the sum is the
    64-bit sum of the two sums and the maximum the greater of the two
    maxima. *)
Theorem sequential_concat (a b : list Z) :
  sum_even (sequential (a ++ b))
  = ll_add (sum_even (sequential a)) (sum_even (sequential b)) ∧
  max_even (sequential (a ++ b))
  = Z.max (max_even (sequential a)) (max_even (sequential b)).
Proof.
  rewrite !sequential_eq. cbn [sum_even max_even].
  rewrite evens_app, sumZ_app, maxZ_app. unfold ll_add.
  by rewrite wrap_64_add.
Qed.

(** X6.  When no even element is negative the printed result is not
    above the printed maximum: [2 * max - sum] is [max] less the other
    even elements, and [-2] against [-1] without even elements. *)
Theorem result_le_max (a : list Z) :
  array_ok a → Forall (λ y, 0 ≤ y) (evens a) →
  result_of (sequential a) ≤ max_even (sequential a).
Proof.
  intros Hok Hpos. pose proof (combine_exact_sequential a Hok) as H.
  cbn zeta in H. destruct H as (_ & _ & Hs & _ & Hc).
  unfold result_of. rewrite Hc, Hs.
  rewrite sequential_eq. cbn [max_even].
  destruct (nonneg_sum_max _ Hpos) as [H0 Hm].
  destruct (evens a) as [|y l] eqn:E; [done|].
  specialize (Hm ltac:(done)). lia.
Qed.

Lemma result_le_max_witness :
  array_ok [2; 3; 4; 5; 6] ∧ Forall (λ y, 0 ≤ y) (evens [2; 3; 4; 5; 6]) ∧
  result_of (sequential [2; 3; 4; 5; 6]) ≤ max_even (sequential [2; 3; 4; 5; 6]).
Proof.
  assert (array_ok [2; 3; 4; 5; 6]) as Hok.
  { split; [|unfold INT_MAX; simpl; lia].
    repeat constructor; unfold INT_MIN, INT_MAX; simpl; lia. }
  assert (Forall (λ y, 0 ≤ y) (evens [2; 3; 4; 5; 6])) as Hpos.
  { vm_compute evens. repeat constructor; lia. }
  split; [exact Hok|]. split; [exact Hpos|].
  exact (result_le_max [2; 3; 4; 5; 6] Hok Hpos).
Defined.

(** ** The sizes of the chunks *)

(** X7.  Every thread but the last gets exactly [n / num_threads]
    elements and the last one gets the remainder [n mod num_threads] in
    addition, so no two threads differ by [num_threads] elements or
    more. *)
Theorem chunk_sizes (n W : Z) :
  sizes_ok n W →
  (∀ t, 0 ≤ t < W - 1 → end_idx n W t - start_idx n W t = n `div` W) ∧
  end_idx n W (W - 1) - start_idx n W (W - 1) = n `div` W + n `mod` W ∧
  (∀ t, 0 ≤ t < W →
     n `div` W ≤ end_idx n W t - start_idx n W t < n `div` W + W).
Proof.
  intros Hsz. pose proof (chunk_eq n W Hsz) as Hc.
  assert (1 ≤ W) as HW by apply Hsz.
  pose proof (Z.div_mod n W ltac:(lia)) as Hdm.
  pose proof (Z.mod_pos_bound n W ltac:(lia)) as Hmod.
  assert (∀ t, 0 ≤ t < W - 1 →
               end_idx n W t - start_idx n W t = n `div` W) as H1.
  { intros t Ht. rewrite start_idx_eq, end_idx_eq, Hc by (done || lia).
    destruct (t =? W - 1) eqn:E; [apply Z.eqb_eq in E; lia|lia]. }
  assert (end_idx n W (W - 1) - start_idx n W (W - 1)
          = n `div` W + n `mod` W) as H2.
  { rewrite start_idx_eq, (chunk_last n W Hsz), Hc by (done || lia). lia. }
  split; [done|]. split; [done|]. intros t Ht.
  destruct (decide (t = W - 1)) as [->|Hne]; [lia|].
  rewrite H1 by lia. lia.
Qed.

Lemma chunk_sizes_witness :
  sizes_ok 10 3 ∧
  end_idx 10 3 0 - start_idx 10 3 0 = 3 ∧
  end_idx 10 3 2 - start_idx 10 3 2 = 4.
Proof.
  assert (sizes_ok 10 3) as Hsz by (unfold sizes_ok, INT_MAX; simpl; lia).
  split; [exact Hsz|].
  destruct (chunk_sizes 10 3 Hsz) as (H1 & H2 & _).
  split; [exact (H1 0 ltac:(lia))|exact H2].
Defined.

(** ** The array [main] works on *)

(** X8.  On the array [main] fills (size [n], default bounds) all
    elements lie in [[0, 10000]], and every version, on every schedule,
    ends with the exact sum of the even elements and with the greatest
    even element, or [-1] when there is none. *)
Theorem generated_array_reduces {G : Type} (draw : Z → Z → G → Z * G)
    (W n : Z) (gen : G) :
  draw_in_range draw → sizes_ok n W →
  Z.of_nat (length (main_array draw n gen)) = n ∧
  Forall (λ x, 0 ≤ x ≤ 10000) (main_array draw n gen) ∧
  array_ok (main_array draw n gen) ∧
  ∀ mx sm, final_pair W (main_array draw n gen) mx sm →
    sm = sumZ (evens (main_array draw n gen)) ∧
    true_max_or_sentinel (main_array draw n gen) mx ∧
    -1 ≤ mx ≤ 10000.
Proof.
  intros Hd Hsz. unfold main_array.
  set (a := (generateArray draw (replicate (Z.to_nat n) 0) 0 10000 gen).1).
  assert (Z.of_nat (length a) = n) as Hlen.
  { unfold a. rewrite generateArray_length, length_replicate.
    destruct Hsz as [? _]. lia. }
  assert (Forall (λ x, 0 ≤ x ≤ 10000) a) as Hrange
      by (by apply generateArray_Forall).
  assert (array_ok a) as Hok.
  { split; [|rewrite Hlen; apply Hsz].
    eapply Forall_impl; [exact Hrange|]. intros x Hx. cbv beta in Hx.
    apply (proj2 (int_bounds _)). lia. }
  assert (Forall (λ x, 0 ≤ x ≤ 10000) (evens a)) as Hev.
  { apply Forall_forall. intros x [_ Hx]%elem_of_evens.
    by eapply Forall_forall in Hrange. }
  split; [done|]. split; [done|]. split; [done|].
  intros mx sm [-> ->]%final_pair_sequential; [|by rewrite Hlen].
  rewrite sequential_eq. cbn [sum_even max_even].
  split; [by apply evens_sum_fits|]. split.
  - apply nonneg_true_max. eapply Forall_impl; [exact Hev|].
    intros x Hx. cbv beta in Hx. lia.
  - pose proof (maxZ_lower (evens a)). split; [done|].
    destruct (maxZ_elem (evens a)) as [->|Hin]; [lia|].
    eapply Forall_forall in Hev; [|exact Hin]. cbv beta in Hev. lia.
Qed.

Lemma generated_array_reduces_witness :
  draw_in_range lcg_draw ∧ sizes_ok 5 32 ∧
  main_array lcg_draw 5 42 = [42; 990; 645; 6696; 7956] ∧
  ∀ mx sm, final_pair 32 (main_array lcg_draw 5 42) mx sm →
    sm = sumZ (evens (main_array lcg_draw 5 42)) ∧
    true_max_or_sentinel (main_array lcg_draw 5 42) mx ∧ -1 ≤ mx ≤ 10000.
Proof.
  assert (sizes_ok 5 32) as Hsz by (unfold sizes_ok, INT_MAX; simpl; lia).
  split; [exact lcg_draw_in_range|]. split; [exact Hsz|].
  split; [vm_compute; reflexivity|].
  exact (proj2 (proj2 (proj2
           (generated_array_reduces lcg_draw 32 5 42 lcg_draw_in_range Hsz)))).
Defined.

(** ** The version with a mutex *)

Lemma elem_of_slice a lo hi x : x ∈ slice a lo hi → x ∈ a.
Proof.
  unfold slice. intros H. by apply subseteq_take, subseteq_drop in H.
Qed.

Section MutexExtra.
Variable W : Z.
Variable a : list Z.
Let n := Z.of_nat (length a).
Hypothesis Hsz : sizes_ok n W.

Lemma minv_exclusive σ t th :
  minv W a σ → m_threads σ !! t = Some th →
  in_crit (m_pc th) = true ↔ mtx σ = Some t.
Proof.
  intros Hinv Hth. split; [by apply (minv_crit _ _ _ Hinv)|].
  intros (th0 & Hth0 & Hc)%(minv_owner _ _ _ Hinv). congruence.
Qed.

Lemma crit_enabled σ t th :
  m_threads σ !! t = Some th → in_crit (m_pc th) = true →
  is_Some (mstep_at t σ).
Proof.
  intros Hth Hc. unfold mstep_at. rewrite Hth. unfold m_exec.
  destruct (m_pc th); try done. by destruct (_ >? _).
Qed.

Lemma minv_maxed_evens σ t th y :
  minv W a σ → m_threads σ !! t = Some th → y ∈ m_maxed a th →
  y ∈ evens a.
Proof.
  intros Hinv Hth Hy. pose proof (minv_ok _ _ _ Hinv _ _ Hth) as Hok.
  unfold m_maxed in Hy. apply elem_of_app in Hy as [Hy|Hy].
  - apply elem_of_evens in Hy as [Hev Hy%elem_of_slice].
    by apply elem_of_evens.
  - unfold mthread_ok in Hok. destruct (m_pc th); try by apply elem_of_nil in Hy.
    apply list_elem_of_singleton in Hy as ->.
    destruct Hok as (_ & [_ Hx]%index_Some & Hev).
    apply elem_of_evens. split; [done|]. by eapply list_elem_of_lookup_2.
Qed.

Lemma weights_upto (k : nat) :
  Z.of_nat k < W →
  Z.of_nat (sum_list_with m_weight
              (mspawn n W <$> seqZ 0 (Z.of_nat k)))
  = 7 * start_idx n W (Z.of_nat k) + Z.of_nat k.
Proof using Hsz.
  induction k as [|k IH]; intros Hk.
  - change (Z.of_nat 0) with 0. rewrite (chunk_first n W Hsz). done.
  - rewrite seqZ_S, fmap_app, sum_list_with_app, Nat2Z.inj_add, IH by lia.
    cbn [fmap list_fmap sum_list_with]. rewrite Z.add_0_l.
    unfold m_weight, mspawn. cbn [m_pc m_end].
    rewrite (chunk_adjacent n W Hsz) by lia.
    replace (Z.of_nat (S k)) with (Z.of_nat k + 1) by lia.
    pose proof (chunk_range_bounds n W Hsz (Z.of_nat k) ltac:(lia)).
    pose proof (chunk_adjacent n W Hsz (Z.of_nat k) ltac:(lia)).
    lia.
Qed.

Lemma minit_measure : Z.of_nat (m_measure (minit W a)) = 7 * n + W.
Proof using Hsz.
  destruct Hsz as [Hn HW]. unfold m_measure, minit. cbn [m_threads]. fold n.
  assert (seqZ 0 W = seqZ 0 (Z.of_nat (Z.to_nat (W - 1))) ++ [W - 1]) as ->.
  { rewrite <-(Z2Nat.id W) at 1 by lia.
    replace (Z.to_nat W) with (S (Z.to_nat (W - 1))) by lia.
    rewrite seqZ_S. do 2 f_equal. lia. }
  rewrite fmap_app, sum_list_with_app, Nat2Z.inj_add, weights_upto by lia.
  cbn [fmap list_fmap sum_list_with].
  unfold m_weight, mspawn. cbn [m_pc m_end].
  replace (Z.of_nat (Z.to_nat (W - 1))) with (W - 1) by lia.
  pose proof (chunk_range_bounds n W Hsz (W - 1) ltac:(lia)).
  rewrite (chunk_last n W Hsz) in *. lia.
Qed.
End MutexExtra.

(** X9.  Mutual exclusion: in every state the mutex version can reach, a
    thread is between lines 71 and 75 exactly when it owns the mutex, so
    no two threads are there together. *)
Theorem mutex_exclusive (W : Z) (a : list Z) (σ : mstate) :
  sizes_ok (Z.of_nat (length a)) W → rtc mstep (minit W a) σ →
  (∀ t th, m_threads σ !! t = Some th →
     (in_crit (m_pc th) = true ↔ mtx σ = Some t)) ∧
  (∀ t1 t2 th1 th2,
     m_threads σ !! t1 = Some th1 → m_threads σ !! t2 = Some th2 →
     in_crit (m_pc th1) = true → in_crit (m_pc th2) = true → t1 = t2).
Proof.
  intros Hsz Hr. pose proof (mreach_inv W a Hsz σ Hr) as Hinv. split.
  - intros t th. by apply (minv_exclusive W a).
  - intros t1 t2 th1 th2 H1 H2 Hc1 Hc2.
    apply (minv_crit _ _ _ Hinv _ _ H1) in Hc1.
    apply (minv_crit _ _ _ Hinv _ _ H2) in Hc2. congruence.
Qed.

Lemma mutex_exclusive_witness :
  sizes_ok (Z.of_nat (length [2; 3; 4; 5; 6])) 2 ∧
  rtc mstep (minit 2 [2; 3; 4; 5; 6])
            (mrun [1; 0; 1; 0]%nat (minit 2 [2; 3; 4; 5; 6])) ∧
  mtx (mrun [1; 0; 1; 0]%nat (minit 2 [2; 3; 4; 5; 6])) = Some 1%nat ∧
  ∀ t th,
    m_threads (mrun [1; 0; 1; 0]%nat (minit 2 [2; 3; 4; 5; 6])) !! t = Some th →
    (in_crit (m_pc th) = true
     ↔ mtx (mrun [1; 0; 1; 0]%nat (minit 2 [2; 3; 4; 5; 6])) = Some t).
Proof.
  assert (sizes_ok (Z.of_nat (length [2; 3; 4; 5; 6])) 2) as Hsz
      by (unfold sizes_ok, INT_MAX; simpl; lia).
  pose proof (mrun_reach [1; 0; 1; 0]%nat (minit 2 [2; 3; 4; 5; 6])) as Hr.
  split; [exact Hsz|]. split; [exact Hr|]. split; [vm_compute; reflexivity|].
  exact (proj1 (mutex_exclusive 2 [2; 3; 4; 5; 6] _ Hsz Hr)).
Defined.

(** X10.  The mutex version does not deadlock: in every state it can
    reach, the owner of the mutex can make a step, and as long as some
    thread has not returned some thread can make a step. *)
Theorem mutex_no_deadlock (W : Z) (a : list Z) (σ : mstate) :
  sizes_ok (Z.of_nat (length a)) W → rtc mstep (minit W a) σ →
  (∀ t, mtx σ = Some t → is_Some (mstep_at t σ)) ∧
  (¬ mjoined σ → ∃ σ', mstep σ σ').
Proof.
  intros Hsz Hr. split.
  - intros t Hlk. pose proof (mreach_inv W a Hsz σ Hr) as Hinv.
    destruct (minv_owner _ _ _ Hinv _ Hlk) as (th & Hth & Hc).
    by eapply crit_enabled.
  - by apply (mutex_progress W a Hsz).
Qed.

Lemma mutex_no_deadlock_witness :
  sizes_ok (Z.of_nat (length [2; 3; 4; 5; 6])) 2 ∧
  rtc mstep (minit 2 [2; 3; 4; 5; 6])
            (mrun [1; 0; 1; 0]%nat (minit 2 [2; 3; 4; 5; 6])) ∧
  is_Some (mstep_at 1 (mrun [1; 0; 1; 0]%nat (minit 2 [2; 3; 4; 5; 6]))).
Proof.
  assert (sizes_ok (Z.of_nat (length [2; 3; 4; 5; 6])) 2) as Hsz
      by (unfold sizes_ok, INT_MAX; simpl; lia).
  pose proof (mrun_reach [1; 0; 1; 0]%nat (minit 2 [2; 3; 4; 5; 6])) as Hr.
  split; [exact Hsz|]. split; [exact Hr|].
  apply (proj1 (mutex_no_deadlock 2 [2; 3; 4; 5; 6] _ Hsz Hr)).
  vm_compute. reflexivity.
Defined.

(** X11.  When every thread has returned the mutex is free: no thread
    returns while it holds the lock. *)
Theorem mutex_free_at_join (W : Z) (a : list Z) (σ : mstate) :
  sizes_ok (Z.of_nat (length a)) W → rtc mstep (minit W a) σ →
  mjoined σ → mtx σ = None.
Proof.
  intros Hsz Hr Hj. pose proof (mreach_inv W a Hsz σ Hr) as Hinv.
  destruct (mtx σ) as [t|] eqn:Hlk; [|done].
  destruct (minv_owner _ _ _ Hinv _ Hlk) as (th & Hth & Hc).
  eapply Forall_lookup_1 in Hj; [|exact Hth]. cbv beta in Hj.
  by rewrite Hj in Hc.
Qed.

Lemma mutex_free_at_join_witness :
  sizes_ok (Z.of_nat (length [2; 3])) 1 ∧
  rtc mstep (minit 1 [2; 3]) (mrun (replicate 8 0%nat) (minit 1 [2; 3])) ∧
  mjoined (mrun (replicate 8 0%nat) (minit 1 [2; 3])) ∧
  mtx (mrun (replicate 8 0%nat) (minit 1 [2; 3])) = None.
Proof.
  assert (sizes_ok (Z.of_nat (length [2; 3])) 1) as Hsz
      by (unfold sizes_ok, INT_MAX; simpl; lia).
  pose proof (mrun_reach (replicate 8 0%nat) (minit 1 [2; 3])) as Hr.
  assert (mjoined (mrun (replicate 8 0%nat) (minit 1 [2; 3]))) as Hj
      by (vm_compute; repeat constructor).
  split; [exact Hsz|]. split; [exact Hr|]. split; [exact Hj|].
  exact (mutex_free_at_join 1 [2; 3] _ Hsz Hr Hj).
Defined.

(** A schedule whose first thread can move makes one step more than the
    rest of the schedule makes from the state reached. *)
Lemma mrun_nsteps_cons t sched σ k :
  is_Some (mstep_at t σ) →
  nsteps mstep k (default σ (mstep_at t σ))
         (mrun sched (default σ (mstep_at t σ))) →
  nsteps mstep (S k) σ (mrun (t :: sched) σ).
Proof.
  intros [σ1 H1]. change (mrun (t :: sched) σ)
    with (mrun sched (default σ (mstep_at t σ))).
  rewrite H1. cbn [default from_option id]. intros Hn.
  eapply nsteps_l; [by exists t|done].
Qed.

(** X12.  Every run of the mutex version ends: a run from the start has
    at most [7 * n + num_threads] steps, whatever the schedule. *)
Theorem mutex_steps_bound (W : Z) (a : list Z) (k : nat) (σ : mstate) :
  sizes_ok (Z.of_nat (length a)) W → nsteps mstep k (minit W a) σ →
  Z.of_nat k ≤ 7 * Z.of_nat (length a) + W.
Proof.
  intros Hsz Hn. pose proof (mutex_run_bounded W a Hsz k σ Hn).
  rewrite <-(minit_measure W a Hsz). lia.
Qed.

Lemma mutex_steps_bound_witness :
  sizes_ok (Z.of_nat (length [2; 3])) 1 ∧
  nsteps mstep 8 (minit 1 [2; 3]) (mrun (replicate 8 0%nat) (minit 1 [2; 3])) ∧
  mjoined (mrun (replicate 8 0%nat) (minit 1 [2; 3])) ∧
  Z.of_nat 8 ≤ 7 * Z.of_nat (length [2; 3]) + 1.
Proof.
  assert (sizes_ok (Z.of_nat (length [2; 3])) 1) as Hsz
      by (unfold sizes_ok, INT_MAX; simpl; lia).
  assert (nsteps mstep 8 (minit 1 [2; 3])
                 (mrun (replicate 8 0%nat) (minit 1 [2; 3]))) as Hn.
  { cbn [replicate].
    do 8 (apply mrun_nsteps_cons; [vm_compute; by eexists|]).
    apply nsteps_O. }
  split; [exact Hsz|]. split; [exact Hn|].
  split; [vm_compute; repeat constructor|].
  exact (mutex_steps_bound 1 [2; 3] 8 _ Hsz Hn).
Defined.

(** X13.  In every state the mutex version can reach, [max_even] is [-1]
    or an even element of the array, and is not above the maximum the
    version ends with. *)
Theorem mutex_max_sound (W : Z) (a : list Z) (σ : mstate) :
  sizes_ok (Z.of_nat (length a)) W → rtc mstep (minit W a) σ →
  max_even (m_store σ) ∈ -1 :: evens a ∧
  -1 ≤ max_even (m_store σ) ≤ max_even (sequential a).
Proof.
  intros Hsz Hr. pose proof (mreach_inv W a Hsz σ Hr) as Hinv.
  rewrite sequential_eq. cbn [max_even]. rewrite (minv_max _ _ _ Hinv).
  set (l := concat (m_maxed a <$> m_threads σ)).
  assert (∀ y, y ∈ l → y ∈ evens a) as Hsub.
  { intros y (th & [t Hth]%list_elem_of_lookup & Hy)%elem_of_concat_fmap.
    by eapply minv_maxed_evens. }
  pose proof (maxZ_lower l). pose proof (maxZ_lower (evens a)).
  destruct (maxZ_elem l) as [->|Hin].
  - split; [left|lia].
  - apply Hsub in Hin. split; [by right|].
    apply maxZ_upper in Hin. lia.
Qed.

Lemma mutex_max_sound_witness :
  sizes_ok (Z.of_nat (length [2; 3; 4; 5; 6])) 2 ∧
  rtc mstep (minit 2 [2; 3; 4; 5; 6])
            (mrun (replicate 6 0%nat) (minit 2 [2; 3; 4; 5; 6])) ∧
  max_even (m_store (mrun (replicate 6 0%nat) (minit 2 [2; 3; 4; 5; 6]))) = 2 ∧
  max_even (m_store (mrun (replicate 6 0%nat) (minit 2 [2; 3; 4; 5; 6])))
    ∈ -1 :: evens [2; 3; 4; 5; 6].
Proof.
  assert (sizes_ok (Z.of_nat (length [2; 3; 4; 5; 6])) 2) as Hsz
      by (unfold sizes_ok, INT_MAX; simpl; lia).
  pose proof (mrun_reach (replicate 6 0%nat) (minit 2 [2; 3; 4; 5; 6])) as Hr.
  split; [exact Hsz|]. split; [exact Hr|]. split; [vm_compute; reflexivity|].
  exact (proj1 (mutex_max_sound 2 [2; 3; 4; 5; 6] _ Hsz Hr)).
Defined.

(** ** The lock-free version *)




(** X14.  The lock-free version never blocks: in every state it can
    reach, a thread that has not returned can make a step, whatever value
    its relaxed load returns and whether or not its exchange fails
    spuriously. *)
Theorem lockfree_never_blocks (W : Z) (a : list Z) (σ : astate)
    (t : nat) (th : athread) (c : choice) :
  sizes_ok (Z.of_nat (length a)) W → rtc astep (ainit W a) σ →
  a_threads σ !! t = Some th → a_pc th ≠ ADone →
  is_Some (astep_at t c σ).
Proof.
  intros Hsz Hr Hth Hnd. pose proof (areach_inv W a Hsz σ Hr) as Hinv.
  pose proof (ainv_ok _ _ _ Hinv _ _ Hth) as Hok. unfold athread_ok in Hok.
  unfold astep_at. rewrite Hth. unfold a_exec.
  destruct (a_pc th); try done.
  - destruct (_ <? _); [|done]. destruct (index _ _); [|done].
    by destruct (is_even _).
  - destruct (_ >? _); [|done]. by destruct (_ && _).
Qed.

Lemma lockfree_never_blocks_witness :
  sizes_ok (Z.of_nat (length [2; 3; 4; 5; 6])) 2 ∧
  rtc astep (ainit 2 [2; 3; 4; 5; 6])
            (arun (replicate 3 (0%nat, prompt)) (ainit 2 [2; 3; 4; 5; 6])) ∧
  a_pc <$> a_threads (arun (replicate 3 (0%nat, prompt))
                           (ainit 2 [2; 3; 4; 5; 6])) !! 0%nat
    = Some (ACas 0 2 (-1)) ∧
  is_Some (astep_at 0 (Choice 7 true)
             (arun (replicate 3 (0%nat, prompt)) (ainit 2 [2; 3; 4; 5; 6]))).
Proof.
  assert (sizes_ok (Z.of_nat (length [2; 3; 4; 5; 6])) 2) as Hsz
      by (unfold sizes_ok, INT_MAX; simpl; lia).
  pose proof (arun_reach (replicate 3 (0%nat, prompt))
                (ainit 2 [2; 3; 4; 5; 6])) as Hr.
  split; [exact Hsz|]. split; [exact Hr|]. split; [vm_compute; reflexivity|].
  apply (lockfree_never_blocks 2 [2; 3; 4; 5; 6] _ 0
           (AThread 0 2 (ACas 0 2 (-1))) (Choice 7 true) Hsz Hr).
  - vm_compute. reflexivity.
  - discriminate.
Defined.

(** X15.  From every state the lock-free version can reach, every thread
    can be run to its return by a schedule that leaves all other threads
    where they are: no thread needs another one to make progress. *)
Theorem lockfree_solo (W : Z) (a : list Z) (σ : astate)
    (t : nat) (th : athread) :
  sizes_ok (Z.of_nat (length a)) W → rtc astep (ainit W a) σ →
  a_threads σ !! t = Some th →
  ∃ sched,
    a_threads (arun sched σ)
    = <[t := AThread (a_start th) (a_end th) ADone]> (a_threads σ).
Proof.
  intros Hsz Hr Hth. apply (a_finish W a Hsz); [|done].
  by apply areach_inv.
Qed.

Lemma lockfree_solo_witness :
  sizes_ok (Z.of_nat (length [2; 3; 4; 5; 6])) 2 ∧
  rtc astep (ainit 2 [2; 3; 4; 5; 6]) (ainit 2 [2; 3; 4; 5; 6]) ∧
  ∃ sched,
    a_threads (arun sched (ainit 2 [2; 3; 4; 5; 6]))
    = [AThread 0 2 (ALoop 0); AThread 2 5 ADone].
Proof.
  assert (sizes_ok (Z.of_nat (length [2; 3; 4; 5; 6])) 2) as Hsz
      by (unfold sizes_ok, INT_MAX; simpl; lia).
  split; [exact Hsz|]. split; [apply rtc_refl|].
  exact (lockfree_solo 2 [2; 3; 4; 5; 6] (ainit 2 [2; 3; 4; 5; 6]) 1
           (AThread 2 5 (ALoop 2)) Hsz (rtc_refl _ _) eq_refl).
Defined.


